(** * rebrand.py: a shallow embedding and its verified properties

    The script walks a directory tree, rewrites three brand strings in
    every eligible text file and prints a report.  Python [str] values
    are modelled as lists of Unicode code points, file contents as lists
    of byte values, the file system as a finite map from path strings to
    files, and the effects of the script (file opens, writes, prints,
    exceptions) by a state-and-exception monad over that world. *)

From Stdlib Require Import ZArith Ascii String Lia ZifyBool.
From stdpp Require Import base list gmap sorting pretty.

Local Open Scope Z_scope.

(** ** Text *)

(** A Python [str]: a sequence of code points. *)
Abbreviation str := (list Z).

(** The code points of an ASCII literal of the source. *)
Definition cps (s : string) : str :=
  map (fun a => Z.of_N (N_of_ascii a)) (list_ascii_of_string s).

Definition str_eqb (a b : str) : bool := bool_decide (a = b).

(** A fixed-length pattern: one character test per position. *)
Abbreviation pattern := (list (Z -> bool)).

(** [pmatch p s]: the pattern matches a prefix of [s]. *)
Fixpoint pmatch (p : pattern) (s : str) : bool :=
  match p, s with
  | [], _ => true
  | _ :: _, [] => false
  | f :: p', c :: s' => f c && pmatch p' s'
  end.

(** [contains p s]: the pattern matches at some position of [s] (the
    Python [in] operator when the pattern is a literal). *)
Fixpoint contains (p : pattern) (s : str) : bool :=
  pmatch p s ||
  match s with
  | [] => false
  | _ :: t => contains p t
  end.

(** Left-to-right replacement of the non-overlapping matches of a
    non-empty pattern.  [skip] counts the characters of the current
    match that are still to be consumed, which keeps the recursion
    structural. *)
Fixpoint sub_from (p : pattern) (repl : str) (skip : nat) (s : str) : str :=
  match s with
  | [] => []
  | c :: t =>
      match skip with
      | S k => sub_from p repl k t
      | O =>
          if pmatch p s then repl ++ sub_from p repl (pred (length p)) t
          else c :: sub_from p repl 0 t
      end
  end.

Definition sub_all (p : pattern) (repl s : str) : str := sub_from p repl 0 s.

(** The pattern of a literal string. *)
Definition lit (old : str) : pattern := map Z.eqb old.

(** [s.replace(old, new)] for a non-empty [old]. *)
Definition str_replace (old new s : str) : str := sub_all (lit old) new s.

(** [pattern in s] for strings. *)
Definition str_in (needle s : str) : bool := contains (lit needle) s.

(** *** Case-insensitive regular expressions

    The one regular expression of the script is a sequence of literal
    characters, some of them escaped.  [re_parse] reads such a source
    text; [re_compile] turns it into a pattern, following what the
    [re] module does under [re.IGNORECASE] for a [str] pattern: a cased
    literal is compared with the lower-cased subject character, and a
    literal whose lower case has further case-equivalent characters
    also accepts those. *)

Inductive re_item : Type :=
| Lit (c : Z)
| AnyChar.

Fixpoint re_parse (src : str) : list re_item :=
  match src with
  | [] => []
  | c :: t =>
      if c =? 92 then
        match t with
        | [] => []
        | d :: t' => Lit d :: re_parse t'
        end
      else if c =? 46 then AnyChar :: re_parse t
      else Lit c :: re_parse t
  end.

(** Simple lower-casing of a code point, exact on every code point whose
    lower case is an ASCII character (the upper-case ASCII letters,
    U+0130 and the Kelvin sign U+212A); the other code points lower-case
    to non-ASCII characters and are left as they are, which no comparison
    with an ASCII pattern character can tell apart. *)
Definition sre_lower (c : Z) : Z :=
  if (65 <=? c) && (c <=? 90) then c + 32
  else if c =? 304 then 105
  else if c =? 8490 then 107
  else c.

Definition iscased_ascii (c : Z) : bool :=
  ((65 <=? c) && (c <=? 90)) || ((97 <=? c) && (c <=? 122)).

(** The extra case-equivalent characters of a lower-case ASCII letter:
    dotless i for [i], long s for [s]. *)
Definition ignorecase_fixes (lo : Z) : list Z :=
  if lo =? 105 then [305]
  else if lo =? 115 then [383]
  else [].

Definition ci_literal (p c : Z) : bool :=
  if iscased_ascii p then
    let lo := sre_lower c in
    (lo =? sre_lower p) || existsb (Z.eqb lo) (ignorecase_fixes (sre_lower p))
  else c =? p.

Definition re_item_test (ignorecase : bool) (i : re_item) : Z -> bool :=
  match i with
  | Lit p => if ignorecase then ci_literal p else Z.eqb p
  | AnyChar => fun c => negb (c =? 10)
  end.

Definition re_compile (ignorecase : bool) (src : str) : pattern :=
  map (re_item_test ignorecase) (re_parse src).

(** [re.sub(src, repl, s, flags=re.IGNORECASE)] for a replacement text
    without escapes or group references. *)
Definition re_sub_ignorecase (src repl s : str) : str :=
  sub_all (re_compile true src) repl s.

(** ** The content transformation of [rebrand_file] *)

Definition brand_old : str := cps "GHL Agency AI".
Definition brand_new : str := cps "Bottleneck Bots".
Definition slug_old : str := cps "ghl-agency-ai".
Definition slug_new : str := cps "bottleneck-bots".
Definition domain_re : str := cps "ghl\.agency\.ai".
Definition domain_new : str := cps "bottleneckbots.com".

Definition transform (content : str) : str :=
  let content := str_replace brand_old brand_new content in
  let content := str_replace slug_old slug_new content in
  let content := re_sub_ignorecase domain_re domain_new content in
  content.

(** ** Text-mode file input and output

    [open(path, 'r', encoding='utf-8', errors='ignore')] followed by
    [read()] decodes the bytes of the file as UTF-8, leaving out every
    byte sequence that is not well formed, and translates the line
    endings CR LF and CR to LF (universal newlines, the default of
    [open]).  [open(path, 'w', encoding='utf-8')] followed by [write]
    encodes the text as UTF-8 (strict: a surrogate code point raises
    [UnicodeEncodeError]); on the POSIX system the script is written
    for, LF is written as it is. *)

Definition is_continuation (b : Z) : bool := (128 <=? b) && (b <? 192).

(** The UTF-8 decoder with [errors='ignore'].  An invalid start byte is
    dropped alone; after an invalid continuation byte the bytes read so
    far of the sequence are dropped and decoding resumes at the
    offending byte; a sequence cut short by the end of the input is
    dropped whole.  Bytes are the values 0 to 255; a value outside that
    range is no byte and is dropped like an invalid start byte. *)
Fixpoint utf8_decode_ignore (bs : list Z) : str :=
  match bs with
  | [] => []
  | b1 :: r1 =>
      if (0 <=? b1) && (b1 <? 128) then b1 :: utf8_decode_ignore r1
      else if b1 <? 194 then utf8_decode_ignore r1
      else if b1 <? 224 then
        match r1 with
        | [] => []
        | b2 :: r2 =>
            if is_continuation b2
            then ((b1 - 192) * 64 + (b2 - 128)) :: utf8_decode_ignore r2
            else utf8_decode_ignore r1
        end
      else if b1 <? 240 then
        match r1 with
        | [] => []
        | b2 :: r2 =>
            if negb (is_continuation b2)
               || (if b2 <? 160 then b1 =? 224 else b1 =? 237)
            then utf8_decode_ignore r1
            else
              match r2 with
              | [] => []
              | b3 :: r3 =>
                  if is_continuation b3
                  then ((b1 - 224) * 4096 + (b2 - 128) * 64 + (b3 - 128))
                         :: utf8_decode_ignore r3
                  else utf8_decode_ignore r2
              end
        end
      else if b1 <? 245 then
        match r1 with
        | [] => []
        | b2 :: r2 =>
            if negb (is_continuation b2)
               || (if b2 <? 144 then b1 =? 240 else b1 =? 244)
            then utf8_decode_ignore r1
            else
              match r2 with
              | [] => []
              | b3 :: r3 =>
                  if negb (is_continuation b3) then utf8_decode_ignore r2
                  else
                    match r3 with
                    | [] => []
                    | b4 :: r4 =>
                        if is_continuation b4
                        then ((b1 - 240) * 262144 + (b2 - 128) * 4096
                              + (b3 - 128) * 64 + (b4 - 128))
                               :: utf8_decode_ignore r4
                        else utf8_decode_ignore r3
                    end
              end
        end
      else utf8_decode_ignore r1
  end.

(** Universal newlines on input. *)
Fixpoint translate_newlines (s : str) : str :=
  match s with
  | [] => []
  | c :: t =>
      if c =? 13 then
        10 :: match t with
              | [] => []
              | d :: t' => if d =? 10 then translate_newlines t' else translate_newlines t
              end
      else c :: translate_newlines t
  end.

(** What [f.read()] returns for a file holding the bytes [bs]. *)
Definition read_text (bs : list Z) : str :=
  translate_newlines (utf8_decode_ignore bs).

(** A Unicode scalar value: a code point that is not a surrogate. *)
Definition is_scalar (c : Z) : bool :=
  (0 <=? c) && (c <? 1114112) && negb ((55296 <=? c) && (c <? 57344)).

Definition utf8_encode_char (c : Z) : option (list Z) :=
  if negb (is_scalar c) then None
  else if c <? 128 then Some [c]
  else if c <? 2048 then Some [192 + c / 64; 128 + c mod 64]
  else if c <? 65536 then
    Some [224 + c / 4096; 128 + (c / 64) mod 64; 128 + c mod 64]
  else
    Some [240 + c / 262144; 128 + (c / 4096) mod 64;
          128 + (c / 64) mod 64; 128 + c mod 64].

(** The strict UTF-8 encoder: [None] stands for [UnicodeEncodeError]. *)
Fixpoint utf8_encode (s : str) : option (list Z) :=
  match s with
  | [] => Some []
  | c :: t =>
      match utf8_encode_char c, utf8_encode t with
      | Some bs, Some r => Some (bs ++ r)
      | _, _ => None
      end
  end.

(** ** Paths *)

Definition base_dir : str := cps "/root/github-repos/ghl-agency-ai".

(** [base / rel] *)
Definition path_join (base rel : str) : str := base ++ [47] ++ rel.

(** The final component of a path. *)
Definition path_name (p : str) : str :=
  fold_left (fun name c => if c =? 47 then [] else name ++ [c]) p [].

Definition ends_with (suffix s : str) : bool :=
  str_eqb (drop (length s - length suffix) s) suffix.

Definition starts_with (prefix s : str) : bool :=
  str_eqb (take (length prefix) s) prefix.

(** ** The world of the script *)

(** A file: its bytes, and the error (if any) that opening it for
    reading (or reading it), respectively opening it for writing,
    raises. *)
Record file : Type := File {
  f_bytes : list Z;
  f_read_err : option str;
  f_write_err : option str
}.

(** The run keeps a trace of the files it opens. *)
Inductive event : Type :=
| EvRead (path : str)
| EvWrite (path : str).

Definition event_path (e : event) : str :=
  match e with EvRead p | EvWrite p => p end.

Record world : Type := World {
  w_listing : list str;       (* entries below [base_dir], relative, in walk order *)
  w_files : gmap str file;    (* absolute path to file *)
  w_stdout : list str;        (* one entry per [print] *)
  w_trace : list event        (* files opened, oldest first *)
}.

(** The exceptions that the modelled operations raise. *)
Inductive exn : Type :=
| OSError (msg : str)
| UnicodeEncodeError (msg : str)
| ValueError (msg : str).

(** [str(e)] *)
Definition exn_str (e : exn) : str :=
  match e with OSError m | UnicodeEncodeError m | ValueError m => m end.

Inductive outcome (A : Type) : Type :=
| Ret (a : A)
| Raise (e : exn).
Arguments Ret {A} a.
Arguments Raise {A} e.

(** Computations of the script: they read and change the world and
    either return or raise. *)
Definition M (A : Type) : Type := world -> outcome A * world.

#[export] Instance M_ret : MRet M := fun A a w => (Ret a, w).

#[export] Instance M_bind : MBind M := fun A B k m w =>
  match m w with
  | (Ret a, w') => k a w'
  | (Raise e, w') => (Raise e, w')
  end.

Definition raise {A} (e : exn) : M A := fun w => (Raise e, w).

(** [try: m except Exception as e: handler e] *)
Definition try_except {A} (m : M A) (handler : exn -> M A) : M A := fun w =>
  match m w with
  | (Ret a, w') => (Ret a, w')
  | (Raise e, w') => handler e w'
  end.

(** [for x in l: s = body x s] *)
Fixpoint for_each {A S} (l : list A) (body : A -> S -> M S) (s : S) : M S :=
  match l with
  | [] => mret s
  | x :: l' => s' ← body x s; for_each l' body s'
  end.

(** [print(line)], to a standard output that accepts the line.  The
    module [Faulty] at the end of the model has [print] with its
    failures. *)
Definition print (line : str) : M unit := fun w =>
  (Ret tt, World (w_listing w) (w_files w) (w_stdout w ++ [line]) (w_trace w)).

Definition log_event (e : event) : M unit := fun w =>
  (Ret tt, World (w_listing w) (w_files w) (w_stdout w) (w_trace w ++ [e])).

Definition get_file (path : str) : M (option file) := fun w =>
  (Ret (w_files w !! path), w).

Definition put_file (path : str) (f : file) : M unit := fun w =>
  (Ret tt, World (w_listing w) (<[path := f]> (w_files w)) (w_stdout w) (w_trace w)).

(** ** [repr] of a string

    [str(e)] of an [OSError] with a file name renders the name with
    [repr]: in single quotes, or in double quotes when the name holds a
    single quote and no double quote; the quote, the backslash, control
    characters and the characters that are not printable are escaped.
    [not_printable] lists, as inclusive ranges, the code points for
    which [str.isprintable] is false (Unicode 14.0, the table of
    CPython 3.11). *)

Definition not_printable : list (Z * Z) :=
  [(0, 31); (127, 160); (173, 173); (888, 889); (896, 899); (907, 907);
   (909, 909); (930, 930); (1328, 1328); (1367, 1368); (1419, 1420);
   (1424, 1424); (1480, 1487); (1515, 1518); (1525, 1541); (1564, 1564);
   (1757, 1757); (1806, 1807); (1867, 1868); (1970, 1983); (2043, 2044);
   (2094, 2095); (2111, 2111); (2140, 2141); (2143, 2143); (2155, 2159);
   (2191, 2199); (2274, 2274); (2436, 2436); (2445, 2446); (2449, 2450);
   (2473, 2473); (2481, 2481); (2483, 2485); (2490, 2491); (2501, 2502);
   (2505, 2506); (2511, 2518); (2520, 2523); (2526, 2526); (2532, 2533);
   (2559, 2560); (2564, 2564); (2571, 2574); (2577, 2578); (2601, 2601);
   (2609, 2609); (2612, 2612); (2615, 2615); (2618, 2619); (2621, 2621);
   (2627, 2630); (2633, 2634); (2638, 2640); (2642, 2648); (2653, 2653);
   (2655, 2661); (2679, 2688); (2692, 2692); (2702, 2702); (2706, 2706);
   (2729, 2729); (2737, 2737); (2740, 2740); (2746, 2747); (2758, 2758);
   (2762, 2762); (2766, 2767); (2769, 2783); (2788, 2789); (2802, 2808);
   (2816, 2816); (2820, 2820); (2829, 2830); (2833, 2834); (2857, 2857);
   (2865, 2865); (2868, 2868); (2874, 2875); (2885, 2886); (2889, 2890);
   (2894, 2900); (2904, 2907); (2910, 2910); (2916, 2917); (2936, 2945);
   (2948, 2948); (2955, 2957); (2961, 2961); (2966, 2968); (2971, 2971);
   (2973, 2973); (2976, 2978); (2981, 2983); (2987, 2989); (3002, 3005);
   (3011, 3013); (3017, 3017); (3022, 3023); (3025, 3030); (3032, 3045);
   (3067, 3071); (3085, 3085); (3089, 3089); (3113, 3113); (3130, 3131);
   (3141, 3141); (3145, 3145); (3150, 3156); (3159, 3159); (3163, 3164);
   (3166, 3167); (3172, 3173); (3184, 3190); (3213, 3213); (3217, 3217);
   (3241, 3241); (3252, 3252); (3258, 3259); (3269, 3269); (3273, 3273);
   (3278, 3284); (3287, 3292); (3295, 3295); (3300, 3301); (3312, 3312);
   (3315, 3327); (3341, 3341); (3345, 3345); (3397, 3397); (3401, 3401);
   (3408, 3411); (3428, 3429); (3456, 3456); (3460, 3460); (3479, 3481);
   (3506, 3506); (3516, 3516); (3518, 3519); (3527, 3529); (3531, 3534);
   (3541, 3541); (3543, 3543); (3552, 3557); (3568, 3569); (3573, 3584);
   (3643, 3646); (3676, 3712); (3715, 3715); (3717, 3717); (3723, 3723);
   (3748, 3748); (3750, 3750); (3774, 3775); (3781, 3781); (3783, 3783);
   (3790, 3791); (3802, 3803); (3808, 3839); (3912, 3912); (3949, 3952);
   (3992, 3992); (4029, 4029); (4045, 4045); (4059, 4095); (4294, 4294);
   (4296, 4300); (4302, 4303); (4681, 4681); (4686, 4687); (4695, 4695);
   (4697, 4697); (4702, 4703); (4745, 4745); (4750, 4751); (4785, 4785);
   (4790, 4791); (4799, 4799); (4801, 4801); (4806, 4807); (4823, 4823);
   (4881, 4881); (4886, 4887); (4955, 4956); (4989, 4991); (5018, 5023);
   (5110, 5111); (5118, 5119); (5760, 5760); (5789, 5791); (5881, 5887);
   (5910, 5918); (5943, 5951); (5972, 5983); (5997, 5997); (6001, 6001);
   (6004, 6015); (6110, 6111); (6122, 6127); (6138, 6143); (6158, 6158);
   (6170, 6175); (6265, 6271); (6315, 6319); (6390, 6399); (6431, 6431);
   (6444, 6447); (6460, 6463); (6465, 6467); (6510, 6511); (6517, 6527);
   (6572, 6575); (6602, 6607); (6619, 6621); (6684, 6685); (6751, 6751);
   (6781, 6782); (6794, 6799); (6810, 6815); (6830, 6831); (6863, 6911);
   (6989, 6991); (7039, 7039); (7156, 7163); (7224, 7226); (7242, 7244);
   (7305, 7311); (7355, 7356); (7368, 7375); (7419, 7423); (7958, 7959);
   (7966, 7967); (8006, 8007); (8014, 8015); (8024, 8024); (8026, 8026);
   (8028, 8028); (8030, 8030); (8062, 8063); (8117, 8117); (8133, 8133);
   (8148, 8149); (8156, 8156); (8176, 8177); (8181, 8181); (8191, 8207);
   (8232, 8239); (8287, 8303); (8306, 8307); (8335, 8335); (8349, 8351);
   (8385, 8399); (8433, 8447); (8588, 8591); (9255, 9279); (9291, 9311);
   (11124, 11125); (11158, 11158); (11508, 11512); (11558, 11558);
   (11560, 11564); (11566, 11567); (11624, 11630); (11633, 11646);
   (11671, 11679); (11687, 11687); (11695, 11695); (11703, 11703);
   (11711, 11711); (11719, 11719); (11727, 11727); (11735, 11735);
   (11743, 11743); (11870, 11903); (11930, 11930); (12020, 12031);
   (12246, 12271); (12284, 12288); (12352, 12352); (12439, 12440);
   (12544, 12548); (12592, 12592); (12687, 12687); (12772, 12783);
   (12831, 12831); (42125, 42127); (42183, 42191); (42540, 42559);
   (42744, 42751); (42955, 42959); (42962, 42962); (42964, 42964);
   (42970, 42993); (43053, 43055); (43066, 43071); (43128, 43135);
   (43206, 43213); (43226, 43231); (43348, 43358); (43389, 43391);
   (43470, 43470); (43482, 43485); (43519, 43519); (43575, 43583);
   (43598, 43599); (43610, 43611); (43715, 43738); (43767, 43776);
   (43783, 43784); (43791, 43792); (43799, 43807); (43815, 43815);
   (43823, 43823); (43884, 43887); (44014, 44015); (44026, 44031);
   (55204, 55215); (55239, 55242); (55292, 63743); (64110, 64111);
   (64218, 64255); (64263, 64274); (64280, 64284); (64311, 64311);
   (64317, 64317); (64319, 64319); (64322, 64322); (64325, 64325);
   (64451, 64466); (64912, 64913); (64968, 64974); (64976, 65007);
   (65050, 65055); (65107, 65107); (65127, 65127); (65132, 65135);
   (65141, 65141); (65277, 65280); (65471, 65473); (65480, 65481);
   (65488, 65489); (65496, 65497); (65501, 65503); (65511, 65511);
   (65519, 65531); (65534, 65535); (65548, 65548); (65575, 65575);
   (65595, 65595); (65598, 65598); (65614, 65615); (65630, 65663);
   (65787, 65791); (65795, 65798); (65844, 65846); (65935, 65935);
   (65949, 65951); (65953, 65999); (66046, 66175); (66205, 66207);
   (66257, 66271); (66300, 66303); (66340, 66348); (66379, 66383);
   (66427, 66431); (66462, 66462); (66500, 66503); (66518, 66559);
   (66718, 66719); (66730, 66735); (66772, 66775); (66812, 66815);
   (66856, 66863); (66916, 66926); (66939, 66939); (66955, 66955);
   (66963, 66963); (66966, 66966); (66978, 66978); (66994, 66994);
   (67002, 67002); (67005, 67071); (67383, 67391); (67414, 67423);
   (67432, 67455); (67462, 67462); (67505, 67505); (67515, 67583);
   (67590, 67591); (67593, 67593); (67638, 67638); (67641, 67643);
   (67645, 67646); (67670, 67670); (67743, 67750); (67760, 67807);
   (67827, 67827); (67830, 67834); (67868, 67870); (67898, 67902);
   (67904, 67967); (68024, 68027); (68048, 68049); (68100, 68100);
   (68103, 68107); (68116, 68116); (68120, 68120); (68150, 68151);
   (68155, 68158); (68169, 68175); (68185, 68191); (68256, 68287);
   (68327, 68330); (68343, 68351); (68406, 68408); (68438, 68439);
   (68467, 68471); (68498, 68504); (68509, 68520); (68528, 68607);
   (68681, 68735); (68787, 68799); (68851, 68857); (68904, 68911);
   (68922, 69215); (69247, 69247); (69290, 69290); (69294, 69295);
   (69298, 69375); (69416, 69423); (69466, 69487); (69514, 69551);
   (69580, 69599); (69623, 69631); (69710, 69713); (69750, 69758);
   (69821, 69821); (69827, 69839); (69865, 69871); (69882, 69887);
   (69941, 69941); (69960, 69967); (70007, 70015); (70112, 70112);
   (70133, 70143); (70162, 70162); (70207, 70271); (70279, 70279);
   (70281, 70281); (70286, 70286); (70302, 70302); (70314, 70319);
   (70379, 70383); (70394, 70399); (70404, 70404); (70413, 70414);
   (70417, 70418); (70441, 70441); (70449, 70449); (70452, 70452);
   (70458, 70458); (70469, 70470); (70473, 70474); (70478, 70479);
   (70481, 70486); (70488, 70492); (70500, 70501); (70509, 70511);
   (70517, 70655); (70748, 70748); (70754, 70783); (70856, 70863);
   (70874, 71039); (71094, 71095); (71134, 71167); (71237, 71247);
   (71258, 71263); (71277, 71295); (71354, 71359); (71370, 71423);
   (71451, 71452); (71468, 71471); (71495, 71679); (71740, 71839);
   (71923, 71934); (71943, 71944); (71946, 71947); (71956, 71956);
   (71959, 71959); (71990, 71990); (71993, 71994); (72007, 72015);
   (72026, 72095); (72104, 72105); (72152, 72153); (72165, 72191);
   (72264, 72271); (72355, 72367); (72441, 72703); (72713, 72713);
   (72759, 72759); (72774, 72783); (72813, 72815); (72848, 72849);
   (72872, 72872); (72887, 72959); (72967, 72967); (72970, 72970);
   (73015, 73017); (73019, 73019); (73022, 73022); (73032, 73039);
   (73050, 73055); (73062, 73062); (73065, 73065); (73103, 73103);
   (73106, 73106); (73113, 73119); (73130, 73439); (73465, 73647);
   (73649, 73663); (73714, 73726); (74650, 74751); (74863, 74863);
   (74869, 74879); (75076, 77711); (77811, 77823); (78895, 82943);
   (83527, 92159); (92729, 92735); (92767, 92767); (92778, 92781);
   (92863, 92863); (92874, 92879); (92910, 92911); (92918, 92927);
   (92998, 93007); (93018, 93018); (93026, 93026); (93048, 93052);
   (93072, 93759); (93851, 93951); (94027, 94030); (94088, 94094);
   (94112, 94175); (94181, 94191); (94194, 94207); (100344, 100351);
   (101590, 101631); (101641, 110575); (110580, 110580); (110588, 110588);
   (110591, 110591); (110883, 110927); (110931, 110947); (110952, 110959);
   (111356, 113663); (113771, 113775); (113789, 113791); (113801, 113807);
   (113818, 113819); (113824, 118527); (118574, 118575); (118599, 118607);
   (118724, 118783); (119030, 119039); (119079, 119080); (119155, 119162);
   (119275, 119295); (119366, 119519); (119540, 119551); (119639, 119647);
   (119673, 119807); (119893, 119893); (119965, 119965); (119968, 119969);
   (119971, 119972); (119975, 119976); (119981, 119981); (119994, 119994);
   (119996, 119996); (120004, 120004); (120070, 120070); (120075, 120076);
   (120085, 120085); (120093, 120093); (120122, 120122); (120127, 120127);
   (120133, 120133); (120135, 120137); (120145, 120145); (120486, 120487);
   (120780, 120781); (121484, 121498); (121504, 121504); (121520, 122623);
   (122655, 122879); (122887, 122887); (122905, 122906); (122914, 122914);
   (122917, 122917); (122923, 123135); (123181, 123183); (123198, 123199);
   (123210, 123213); (123216, 123535); (123567, 123583); (123642, 123646);
   (123648, 124895); (124903, 124903); (124908, 124908); (124911, 124911);
   (124927, 124927); (125125, 125126); (125143, 125183); (125260, 125263);
   (125274, 125277); (125280, 126064); (126133, 126208); (126270, 126463);
   (126468, 126468); (126496, 126496); (126499, 126499); (126501, 126502);
   (126504, 126504); (126515, 126515); (126520, 126520); (126522, 126522);
   (126524, 126529); (126531, 126534); (126536, 126536); (126538, 126538);
   (126540, 126540); (126544, 126544); (126547, 126547); (126549, 126550);
   (126552, 126552); (126554, 126554); (126556, 126556); (126558, 126558);
   (126560, 126560); (126563, 126563); (126565, 126566); (126571, 126571);
   (126579, 126579); (126584, 126584); (126589, 126589); (126591, 126591);
   (126602, 126602); (126620, 126624); (126628, 126628); (126634, 126634);
   (126652, 126703); (126706, 126975); (127020, 127023); (127124, 127135);
   (127151, 127152); (127168, 127168); (127184, 127184); (127222, 127231);
   (127406, 127461); (127491, 127503); (127548, 127551); (127561, 127567);
   (127570, 127583); (127590, 127743); (128728, 128732); (128749, 128751);
   (128765, 128767); (128884, 128895); (128985, 128991); (129004, 129007);
   (129009, 129023); (129036, 129039); (129096, 129103); (129114, 129119);
   (129160, 129167); (129198, 129199); (129202, 129279); (129620, 129631);
   (129646, 129647); (129653, 129655); (129661, 129663); (129671, 129679);
   (129709, 129711); (129723, 129727); (129734, 129743); (129754, 129759);
   (129768, 129775); (129783, 129791); (129939, 129939); (129995, 130031);
   (130042, 131071); (173792, 173823); (177977, 177983); (178206, 178207);
   (183970, 183983); (191457, 194559); (195102, 196607); (201547, 917759);
   (918000, 1114111)].

(** [chr(c).isprintable()] *)
Definition isprintable (c : Z) : bool :=
  negb (existsb (fun r : Z * Z => (fst r <=? c) && (c <=? snd r)) not_printable).

Definition hex_digit (d : Z) : Z := if d <? 10 then 48 + d else 87 + d.

(** [c] in [width] lower-case hexadecimal digits. *)
Fixpoint hex (width : nat) (c : Z) : str :=
  match width with
  | O => []
  | S k => hex k (c / 16) ++ [hex_digit (c mod 16)]
  end.

Definition repr_char (quote c : Z) : str :=
  if (c =? quote) || (c =? 92) then [92; c]
  else if c =? 9 then cps "\t"
  else if c =? 10 then cps "\n"
  else if c =? 13 then cps "\r"
  else if (c <? 32) || (c =? 127) then cps "\x" ++ hex 2 c
  else if c <? 127 then [c]
  else if isprintable c then [c]
  else if c <=? 255 then cps "\x" ++ hex 2 c
  else if c <=? 65535 then cps "\u" ++ hex 4 c
  else cps "\U" ++ hex 8 c.

(** [repr(s)] *)
Definition repr (s : str) : str :=
  let quote :=
    if existsb (Z.eqb 39) s && negb (existsb (Z.eqb 34) s) then 34 else 39 in
  [quote] ++ concat (map (repr_char quote) s) ++ [quote].

(** The [FileNotFoundError] that [open] raises for [path]. *)
Definition no_such_file (path : str) : exn :=
  OSError (cps "[Errno 2] No such file or directory: " ++ repr path).

Definition surrogates_not_allowed : exn :=
  UnicodeEncodeError (cps "'utf-8' codec can't encode character: surrogates not allowed").

(** [with open(path, 'r', encoding='utf-8', errors='ignore') as f: f.read()] *)
Definition open_read (path : str) : M str :=
  _ ← log_event (EvRead path);
  o ← get_file path;
  match o with
  | None => raise (no_such_file path)
  | Some f =>
      match f_read_err f with
      | Some msg => raise (OSError msg)
      | None => mret (read_text (f_bytes f))
      end
  end.

(** [with open(path, 'w', encoding='utf-8') as f: f.write(content)],
    for a file that, once opened, takes all that is written to it.
    Opening truncates the file, so a failing encoder leaves it empty.
    [Faulty.open_write] has the writes that fail. *)
Definition open_write (path : str) (content : str) : M unit :=
  _ ← log_event (EvWrite path);
  o ← get_file path;
  let f := default (File [] None None) o in
  match f_write_err f with
  | Some msg => raise (OSError msg)
  | None =>
      match utf8_encode content with
      | Some bs => put_file path (File bs (f_read_err f) None)
      | None =>
          _ ← put_file path (File [] (f_read_err f) None);
          raise surrogates_not_allowed
      end
  end.

(** ** The script

    [should_skip] is lines 10-22 of rebrand.py, [rebrand_file] lines
    24-49 and [main] lines 51-79. *)

Definition skip_patterns : list str :=
  [cps "node_modules"; cps ".git"; cps "package-lock.json"; cps ".pyc";
   cps "__pycache__"; cps "dist"; cps "build"; cps ".cache"].

(** [any(pattern in str(path) for pattern in skip_patterns)] *)
Definition should_skip (path : str) : bool :=
  existsb (fun pattern => str_in pattern path) skip_patterns.

(** The body of the [try] block of [rebrand_file]. *)
Definition rebrand_body (file_path : str) : M bool :=
  content ← open_read file_path;
  let original_content := content in
  let content := str_replace brand_old brand_new content in
  let content := str_replace slug_old slug_new content in
  let content := re_sub_ignorecase domain_re domain_new content in
  if negb (str_eqb content original_content) then
    _ ← open_write file_path content;
    mret true
  else mret false.

(** [rebrand_file]: the body, and the handler that prints the error and
    returns [False]. *)
Definition rebrand_file (file_path : str) : M bool :=
  try_except (rebrand_body file_path) (fun e =>
    _ ← print (cps "Error processing " ++ file_path ++ cps ": " ++ exn_str e);
    mret false).

Definition extensions : list str :=
  [cps ".md"; cps ".txt"; cps ".ts"; cps ".tsx"; cps ".js"; cps ".jsx";
   cps ".yaml"; cps ".yml"; cps ".json"; cps ".py"; cps ".sh";
   cps ".tpl"; cps ".html"; cps ".css"].

(** [base.rglob('*' + ext)]: the entries below [base] whose name ends
    with [ext], as paths under [base]. *)
Definition rglob (base ext : str) : M (list str) := fun w =>
  (Ret (map (path_join base)
          (filter (fun rel => ends_with ext (path_name rel) = true) (w_listing w))), w).

(** [path.relative_to(base)] *)
Definition relative_to (path base : str) : M str :=
  if starts_with (base ++ [47]) path
  then mret (drop (length base + 1) path)
  else raise (ValueError (path ++ cps " is not in the subpath of " ++ base)).

(** Code-point order on strings, the order of Python's [sorted]. *)
Fixpoint str_leb (a b : str) : bool :=
  match a, b with
  | [], _ => true
  | _ :: _, [] => false
  | x :: a', y :: b' => (x <? y) || ((x =? y) && str_leb a' b')
  end.

Definition str_le (a b : str) : Prop := str_leb a b = true.

#[export] Instance str_le_dec : RelDecision str_le :=
  fun a b => decide (str_leb a b = true).

(** [sorted(l)] for a list of strings: the ascending rearrangement of
    [l], which is unique for this order ([sorted_unique] below), so
    that the sorting algorithm does not matter. *)
Definition sorted (l : list str) : list str := merge_sort str_le l.

(** [str(n)] for a natural number. *)
Definition dec (n : nat) : str := cps (pretty (N.of_nat n)).

(** The two nested loops of [main]; the result is [files_updated]. *)
Definition scan : M (list str) :=
  for_each extensions (fun (ext : str) (files_updated : list str) =>
    paths ← rglob base_dir ext;
    for_each paths (fun (file_path : str) (files_updated : list str) =>
      if should_skip file_path then mret files_updated
      else
        changed ← rebrand_file file_path;
        if (changed : bool) then
          rel ← relative_to file_path base_dir;
          mret (files_updated ++ [rel])
        else mret files_updated) files_updated) [].

(** The prints that end [main]. *)
Definition report (files_updated : list str) : M unit :=
  _ ← print ([10] ++ cps "Rebranding complete!");
  _ ← print (cps "Updated " ++ dec (length files_updated) ++ cps " files");
  if bool_decide (files_updated = []) then mret tt
  else
    _ ← print ([10] ++ cps "Files updated:");
    _ ← for_each (take 50 (sorted files_updated))
          (fun (f : str) (_ : unit) => print (cps "  - " ++ f)) tt;
    if (50 <? length files_updated)%nat
    then print (cps "  ... and " ++ dec (length files_updated - 50) ++ cps " more")
    else mret tt.

Definition main : M unit :=
  files_updated ← scan;
  report files_updated.

(** ** Output and writes that fail

    The definitions above are the script on a standard output that
    accepts every line and on files that, once opened for writing,
    take all that is written.  Neither is guaranteed: [print] raises
    when the line cannot be encoded for standard output or the output
    is closed ([UnicodeEncodeError], [BrokenPipeError]), and [f.write]
    or the [close] that ends the [with] block raise when the device
    fails or is full, after [open(path, 'w')] has truncated the file.
    [faults] says where these failures strike, and the module [Faulty]
    is the script with them: [rebrand_file] prints in its [except]
    block, outside the [try], and the prints of [main] are not guarded
    either, so an exception of [print] leaves the function. *)

Record faults : Type := Faults {
  (* the exception that [print] raises for a line, if any *)
  print_err : str -> option exn;
  (* for a path: the message of the [OSError] that writing raises after
     the file was opened, and the number of bytes that reached the file *)
  flush_err : str -> option (str * nat)
}.

Module Faulty.
Section Faults.
Variable env : faults.

(** [print(line)] *)
Definition print (line : str) : M unit := fun w =>
  match print_err env line with
  | Some e => (Raise e, w)
  | None =>
      (Ret tt, World (w_listing w) (w_files w) (w_stdout w ++ [line]) (w_trace w))
  end.

(** [with open(path, 'w', encoding='utf-8') as f: f.write(content)] *)
Definition open_write (path : str) (content : str) : M unit :=
  _ ← log_event (EvWrite path);
  o ← get_file path;
  let f := default (File [] None None) o in
  match f_write_err f with
  | Some msg => raise (OSError msg)
  | None =>
      match utf8_encode content with
      | None =>
          _ ← put_file path (File [] (f_read_err f) None);
          raise surrogates_not_allowed
      | Some bs =>
          match flush_err env path with
          | Some (msg, n) =>
              _ ← put_file path (File (take n bs) (f_read_err f) None);
              raise (OSError msg)
          | None => put_file path (File bs (f_read_err f) None)
          end
      end
  end.

(** The body of the [try] block of [rebrand_file]. *)
Definition rebrand_body (file_path : str) : M bool :=
  content ← open_read file_path;
  let original_content := content in
  let content := str_replace brand_old brand_new content in
  let content := str_replace slug_old slug_new content in
  let content := re_sub_ignorecase domain_re domain_new content in
  if negb (str_eqb content original_content) then
    _ ← open_write file_path content;
    mret true
  else mret false.

Definition rebrand_file (file_path : str) : M bool :=
  try_except (rebrand_body file_path) (fun e =>
    _ ← print (cps "Error processing " ++ file_path ++ cps ": " ++ exn_str e);
    mret false).

Definition scan : M (list str) :=
  for_each extensions (fun (ext : str) (files_updated : list str) =>
    paths ← rglob base_dir ext;
    for_each paths (fun (file_path : str) (files_updated : list str) =>
      if should_skip file_path then mret files_updated
      else
        changed ← rebrand_file file_path;
        if (changed : bool) then
          rel ← relative_to file_path base_dir;
          mret (files_updated ++ [rel])
        else mret files_updated) files_updated) [].

Definition report (files_updated : list str) : M unit :=
  _ ← print ([10] ++ cps "Rebranding complete!");
  _ ← print (cps "Updated " ++ dec (length files_updated) ++ cps " files");
  if bool_decide (files_updated = []) then mret tt
  else
    _ ← print ([10] ++ cps "Files updated:");
    _ ← for_each (take 50 (sorted files_updated))
          (fun (f : str) (_ : unit) => print (cps "  - " ++ f)) tt;
    if (50 <? length files_updated)%nat
    then print (cps "  ... and " ++ dec (length files_updated - 50) ++ cps " more")
    else mret tt.

Definition main : M unit :=
  files_updated ← scan;
  report files_updated.
End Faults.
End Faulty.

(** ** Notions used in the statements *)

(** The patterns of the three rules. *)
Definition domain_old : str := cps "ghl.agency.ai".
Definition brand_pat : pattern := lit brand_old.
Definition slug_pat : pattern := lit slug_old.
Definition domain_pat : pattern := re_compile true domain_re.

(** [needle] occurs in [s]. *)
Definition occurs (needle s : str) : Prop := ∃ l1 l2, s = l1 ++ needle ++ l2.

(** [v] is [needle] up to the casing of its characters, as
    [re.IGNORECASE] compares characters. *)
Definition casing_variant (needle v : str) : Prop :=
  Forall2 (λ p c, ci_literal p c = true) needle v.

(** A case-insensitive occurrence of [needle] in [s]. *)
Definition occurs_ci (needle s : str) : Prop :=
  ∃ l1 v l2, s = l1 ++ v ++ l2 ∧ casing_variant needle v.

(** A text that holds none of the three targets. *)
Definition clean (content : str) : Prop :=
  ¬ occurs brand_old content ∧ ¬ occurs slug_old content
  ∧ ¬ occurs_ci domain_old content.

(** Lower-casing of the ASCII letters only. *)
Definition ascii_lower (c : Z) : Z :=
  if (65 <=? c) && (c <=? 90) then c + 32 else c.

(** The bytes [bs] are well-formed UTF-8: decoding leaves nothing out,
    so that encoding what was decoded gives [bs] back. *)
Definition well_formed_utf8 (bs : list Z) : Prop :=
  utf8_encode (utf8_decode_ignore bs) = Some bs.

Definition scalar (c : Z) : Prop := is_scalar c = true.
Definition not_cr (c : Z) : Prop := c ≠ 13.

(** The world after a run of [main], and the list [files_updated] that
    the scan collects. *)
Definition after_main (w : world) : world := (main w).2.

Definition files_updated_of (w : world) : list str :=
  match scan w with
  | (Ret files_updated, _) => files_updated
  | (Raise _, _) => []
  end.

(** The name of [rel] ends with [ext]; with one of the extensions. *)
Definition has_extension (ext rel : str) : bool := ends_with ext (path_name rel).

Definition eligible (rel : str) : bool :=
  existsb (λ ext, has_extension ext rel) extensions.

(** ["Error processing {path}: {msg}"] *)
Definition error_line (path msg : str) : str :=
  cps "Error processing " ++ path ++ cps ": " ++ msg.

(** ["  - {f}"] *)
Definition bullet (f : str) : str := cps "  - " ++ f.

(** Processing the file [o] found at [path] raises an exception whose
    text is [msg]: there is no file, or it cannot be opened for reading,
    or its content changes and it cannot be opened for writing. *)
Definition raises (path : str) (o : option file) (msg : str) : Prop :=
  (o = None ∧ msg = exn_str (no_such_file path))
  ∨ (∃ f, o = Some f ∧ f_read_err f = Some msg)
  ∨ (∃ f, o = Some f ∧ f_read_err f = None
          ∧ transform (read_text (f_bytes f)) ≠ read_text (f_bytes f)
          ∧ f_write_err f = Some msg).

(** ** The run as a fold

    On a standard output that accepts every line [rebrand_file]
    returns for every file, and the two nested loops of [main] amount
    to folding the pure step [visit] over the paths in the order
    [walk] lists them.  [verdict_of] sorts
    what [rebrand_file] does with a file into cases; the other
    definitions read the effects off the verdict. *)

Inductive verdict : Type :=
| Missing                  (* no such file *)
| Unreadable (msg : str)   (* opening for reading raises *)
| Untouched                (* the content is unchanged: nothing is written *)
| Unwritable (msg : str)   (* opening for writing raises *)
| Unencodable              (* the encoder raises; shown not to happen *)
| Rewritten (bs : list Z). (* the file now holds [bs] *)

Definition verdict_of (o : option file) : verdict :=
  match o with
  | None => Missing
  | Some f =>
      match f_read_err f with
      | Some msg => Unreadable msg
      | None =>
          let content := read_text (f_bytes f) in
          if str_eqb (transform content) content then Untouched
          else
            match f_write_err f with
            | Some msg => Unwritable msg
            | None =>
                match utf8_encode (transform content) with
                | Some bs => Rewritten bs
                | None => Unencodable
                end
            end
      end
  end.

Definition updated (v : verdict) : bool :=
  match v with Rewritten _ => true | _ => false end.

Definition files_after (path : str) (v : verdict) (m : gmap str file) : gmap str file :=
  match v with
  | Rewritten bs => <[path := File bs None None]> m
  | Unencodable => <[path := File [] None None]> m
  | _ => m
  end.

Definition file_next (o : option file) : option file :=
  match verdict_of o with
  | Rewritten bs => Some (File bs None None)
  | Unencodable => Some (File [] None None)
  | _ => o
  end.

Definition errors_of (path : str) (v : verdict) : list str :=
  match v with
  | Missing => [error_line path (exn_str (no_such_file path))]
  | Unreadable msg | Unwritable msg => [error_line path msg]
  | Unencodable => [error_line path (exn_str surrogates_not_allowed)]
  | Untouched | Rewritten _ => []
  end.

Definition opens_of (path : str) (v : verdict) : list event :=
  match v with
  | Missing | Unreadable _ | Untouched => [EvRead path]
  | Unwritable _ | Unencodable | Rewritten _ => [EvRead path; EvWrite path]
  end.

(** One iteration of the inner loop of [main], on the world and the
    list [files_updated]. *)
Definition visit (st : world * list str) (path : str) : world * list str :=
  if should_skip path then st
  else
    let v := verdict_of (w_files st.1 !! path) in
    (World (w_listing st.1) (files_after path v (w_files st.1))
           (w_stdout st.1 ++ errors_of path v) (w_trace st.1 ++ opens_of path v),
     if updated v then st.2 ++ [drop (length base_dir + 1) path] else st.2).

(** The paths the two loops go through, in order. *)
Definition walk (listing : list str) : list str :=
  concat (map (λ ext, map (path_join base_dir)
                        (filter (λ rel, has_extension ext rel = true) listing))
              extensions).

Definition under_base (path : str) : Prop := ∃ rel, path = path_join base_dir rel.

(** [path] is among the first paths [visited] and is not skipped. *)
Definition hit (visited : list str) (path : str) : Prop :=
  path ∈ visited ∧ should_skip path = false.

(** The run processes [path]. *)
Definition visited (w : world) (path : str) : Prop := hit (walk (w_listing w)) path.

(** What [report] prints. *)
Definition report_lines (files_updated : list str) : list str :=
  [[10] ++ cps "Rebranding complete!";
   cps "Updated " ++ dec (length files_updated) ++ cps " files"] ++
  (if bool_decide (files_updated = []) then []
   else [[10] ++ cps "Files updated:"] ++
        map bullet (take 50 (sorted files_updated)) ++
        (if (50 <? length files_updated)%nat
         then [cps "  ... and " ++ dec (length files_updated - 50) ++ cps " more"]
         else [])).

(** ** Character classes

    To decide that two patterns cannot match overlapping stretches of a
    text, each position of a pattern is bounded by the finite list of
    the code points it accepts. *)

Definition cls (l : list Z) : Z → bool := fun c => existsb (Z.eqb c) l.

(** Some text can be matched by [a] and by [b] from the same position,
    as far as both reach. *)
Fixpoint compatible (a b : list (list Z)) : bool :=
  match a, b with
  | x :: a', y :: b' => existsb (cls y) x && compatible a' b'
  | _, _ => true
  end.

(** Position by position, [cs] holds every code point [p] accepts. *)
Definition covers (cs : list (list Z)) (p : pattern) : Prop :=
  Forall2 (fun f l => ∀ c, f c = true → cls l c = true) p cs.

(** No match of [a] can begin before a match of [b] and reach into it. *)
Definition no_straddle_check (a b : list (list Z)) : bool :=
  forallb (fun k => negb (compatible (drop k a) b)) (seq 1 (length a - 1)).

(** No match of [a] can begin inside a match of [b]. *)
Definition no_inner_check (a b : list (list Z)) : bool :=
  forallb (fun k => negb (compatible a (drop k b))) (seq 0 (length b)).

(** No character of [r] can begin a match of [q], and the first
    character of [r] can stand nowhere in a match of [q]. *)
Definition inert_check (q : list (list Z)) (r : str) : bool :=
  match q, r with
  | q0 :: _, r0 :: _ =>
      forallb (fun c => negb (cls q0 c)) r && forallb (fun l => negb (cls l r0)) q
  | _, _ => false
  end.

(** [r] cannot take part in a match of [q]. *)
Definition inert (q : pattern) (r : str) : Prop :=
  ∃ f q' h r', q = f :: q' ∧ r = h :: r' ∧
    Forall (λ c, f c = false) r ∧ Forall (λ g, g h = false) q.

(** No match of [p] starts before the block [u] and reaches into it. *)
Definition no_straddle (p : pattern) (u : str) : Prop :=
  ∀ x z, x ≠ [] → (length x < length p)%nat → pmatch p (x ++ u ++ z) = false.

(** No match of [p] starts inside the block [u]. *)
Definition no_inner (p : pattern) (u : str) : Prop :=
  ∀ k z, (k < length u)%nat → pmatch p (drop k u ++ z) = false.

(** The code points a case-insensitive literal accepts. *)
Definition ci_class (p : Z) : list Z :=
  if iscased_ascii p then
    let lo := sre_lower p in
    [lo; lo - 32] ++
      (if lo =? 105 then [304; 305]
       else if lo =? 107 then [8490]
       else if lo =? 115 then [383] else [])
  else [p].

Definition lit_cls (old : str) : list (list Z) := map (λ c, [c]) old.
Definition domain_cls : list (list Z) := map ci_class domain_old.

(** ** Example trees

    In [demo_world], [README.md] has CR LF line endings and [copy.md]
    the same text with LF; [bad.md] cannot be opened for reading,
    [ro.txt] not for writing, and [gone.md] is listed but has no file
    behind it; [raw.txt] holds a byte that is not UTF-8 and a CR LF;
    [logo.svg] has no eligible extension and [node_modules/x.js] lies on
    a skipped path. *)

Definition permission_denied (rel : str) : str :=
  cps "[Errno 13] Permission denied: '" ++ path_join base_dir rel ++ cps "'".

Definition demo_files : list (str * file) :=
  [(cps "README.md",
     File (cps "# GHL Agency AI" ++ [13; 10] ++ cps "see GHL.AGENCY.AI") None None);
   (cps "copy.md",
     File (cps "# GHL Agency AI" ++ [10] ++ cps "see GHL.AGENCY.AI") None None);
   (cps "src/app.ts", File (cps "export const plain = 1;") None None);
   (cps "node_modules/x.js", File (cps "ghl-agency-ai") None None);
   (cps "bad.md",
     File (cps "ghl-agency-ai") (Some (permission_denied (cps "bad.md"))) None);
   (cps "ro.txt",
     File (cps "ghl-agency-ai") None (Some (permission_denied (cps "ro.txt"))));
   (cps "raw.txt", File (cps "ghl-agency-ai" ++ [255; 13; 10]) None None);
   (cps "logo.svg", File (cps "ghl-agency-ai") None None)].

Definition demo_world : world :=
  World (map fst demo_files ++ [cps "gone.md"])
        (list_to_map (map (λ e, (path_join base_dir e.1, e.2)) demo_files))
        [] [].



(** The ASCII rendering of a text, for the examples. *)
Definition show (s : str) : string :=
  string_of_list_ascii (map (λ c, ascii_of_N (Z.to_N c)) s).

(** ** Further notions *)

(** The text holds at least one of the three targets. *)
Definition has_target (content : str) : Prop :=
  occurs brand_old content ∨ occurs slug_old content
  ∨ occurs_ci domain_old content.


(** ** The run with failing output and writes *)

(** Standard output accepts every line. *)
Definition stdout_accepts (env : faults) : Prop :=
  ∀ line, print_err env line = None.

(** Nothing fails: the script of [Faulty] is then the script above. *)
Definition no_faults : faults := Faults (λ _, None) (λ _, None).

Definition faulty_after_main (env : faults) (w : world) : world :=
  (Faulty.main env w).2.

Definition faulty_files_updated_of (env : faults) (w : world) : list str :=
  match Faulty.scan env w with
  | (Ret files_updated, _) => files_updated
  | (Raise _, _) => []
  end.

(** Processing the file [o] found at [path] raises an exception whose
    text is [msg]: one of the cases of [raises], or the content
    changes, the file is opened for writing and writing it fails. *)
Definition faulty_raises (env : faults) (path : str) (o : option file) (msg : str) : Prop :=
  raises path o msg
  ∨ (∃ f n, o = Some f ∧ f_read_err f = None ∧ f_write_err f = None
            ∧ transform (read_text (f_bytes f)) ≠ read_text (f_bytes f)
            ∧ flush_err env path = Some (msg, n)).

(** The verdict on a file when writing can fail: that of [verdict_of],
    or the file was truncated and holds only the bytes [bs]. *)
Inductive fverdict : Type :=
| Plain (v : verdict)
| Truncated (msg : str) (bs : list Z).

Definition fverdict_of (env : faults) (path : str) (o : option file) : fverdict :=
  match verdict_of o with
  | Rewritten bs =>
      match flush_err env path with
      | Some (msg, n) => Truncated msg (take n bs)
      | None => Plain (Rewritten bs)
      end
  | v => Plain v
  end.

Definition fupdated (v : fverdict) : bool :=
  match v with Plain v => updated v | Truncated _ _ => false end.

Definition ffiles_after (path : str) (v : fverdict) (m : gmap str file) : gmap str file :=
  match v with
  | Plain v => files_after path v m
  | Truncated _ bs => <[path := File bs None None]> m
  end.

Definition ferrors_of (path : str) (v : fverdict) : list str :=
  match v with
  | Plain v => errors_of path v
  | Truncated msg _ => [error_line path msg]
  end.

Definition fopens_of (path : str) (v : fverdict) : list event :=
  match v with
  | Plain v => opens_of path v
  | Truncated _ _ => [EvRead path; EvWrite path]
  end.

(** The world after [Faulty.rebrand_file] has gone through its [try]
    block, before the error line (if any) is printed. *)
Definition tried (path : str) (v : fverdict) (w : world) : world :=
  World (w_listing w) (ffiles_after path v (w_files w))
        (w_stdout w) (w_trace w ++ fopens_of path v).

(** One iteration of the inner loop of [Faulty.main] when standard
    output accepts the error line. *)
Definition fvisit (env : faults) (st : world * list str) (path : str) : world * list str :=
  if should_skip path then st
  else
    let v := fverdict_of env path (w_files st.1 !! path) in
    (World (w_listing st.1) (ffiles_after path v (w_files st.1))
           (w_stdout st.1 ++ ferrors_of path v) (w_trace st.1 ++ fopens_of path v),
     if fupdated v then st.2 ++ [drop (length base_dir + 1) path] else st.2).

(** No later visit of [path] reports the file [o] as updated: writing
    to it fails, or it is not rewritten in the first place. *)
Definition stuck (env : faults) (path : str) (o : option file) : Prop :=
  flush_err env path ≠ None ∨ updated (verdict_of o) = false.

(** Writing [o] at [path] does not fail half-way. *)
Definition settled (env : faults) (path : str) (o : option file) : Prop :=
  flush_err env path = None ∨ updated (verdict_of o) = false.

(** What a caught error leaves behind: the files [m] as they were, or,
    when writing failed after the file was opened, the first bytes of
    the new content in place of the file at [path]. *)
Definition left_by_error (env : faults) (path msg : str) (m m' : gmap str file) : Prop :=
  m' = m
  ∨ ∃ f bs n, m !! path = Some f
              ∧ utf8_encode (transform (read_text (f_bytes f))) = Some bs
              ∧ flush_err env path = Some (msg, n)
              ∧ m' = <[path := File (take n bs) None None]> m.

(** ** Example faults

    With [disk_full], writing [raw.txt] fails after six bytes.
    [strict_stdout] is a standard output in UTF-8 that refuses what it
    cannot encode; in [surrogate_world] the name of the first file holds
    a byte that is not UTF-8, which [str(path)] renders as the lone
    surrogate U+DCE9, and the file cannot be opened. *)

Definition disk_full : faults :=
  Faults (λ _, None)
         (λ path, if str_eqb path (path_join base_dir (cps "raw.txt"))
                  then Some (cps "[Errno 28] No space left on device", 6%nat)
                  else None).

Definition strict_stdout : faults :=
  Faults (λ line,
            match utf8_encode line with
            | Some _ => None
            | None =>
                Some (UnicodeEncodeError
                        (cps "'utf-8' codec can't encode character '\udce9' in position 53: surrogates not allowed"))
            end)
         (λ _, None).

Definition surrogate_name : str := cps "caf" ++ [56553] ++ cps ".md".

Definition surrogate_world : world :=
  World [surrogate_name; cps "notes.md"]
        (list_to_map
           [(path_join base_dir surrogate_name,
              File (cps "ghl-agency-ai")
                   (Some (cps "[Errno 13] Permission denied: "
                          ++ repr (path_join base_dir surrogate_name))) None);
            (path_join base_dir (cps "notes.md"), File (cps "ghl-agency-ai") None None)])
        [] [].

(** * Replacement of the matches of a pattern *)

(** [sub_all] by its scan: the equations of the function and the
    induction principle that follows them. *)
Section Replacement.
Variables (p : pattern) (repl : str).
Hypothesis p_nonempty : p ≠ [].

Lemma pmatch_app (q : pattern) (s t : str) :
  pmatch q s = true → pmatch q (s ++ t) = true.
Proof.
  revert s. induction q as [|f q IH]; intros [|c s]; simpl; try done.
  intros [-> H]%andb_true_iff. simpl. by apply IH.
Qed.

Lemma pmatch_length (q : pattern) (s : str) :
  pmatch q s = true → (length q ≤ length s)%nat.
Proof.
  revert s. induction q as [|f q IH]; intros [|c s]; simpl; try done; try lia.
  intros [_ H]%andb_true_iff. apply IH in H. lia.
Qed.

Lemma pmatch_long (q : pattern) (s t : str) :
  (length q ≤ length s)%nat → pmatch q (s ++ t) = pmatch q s.
Proof.
  revert s. induction q as [|f q IH]; intros [|c s]; simpl; try done; try lia.
  intros H. f_equal. apply IH. lia.
Qed.

Lemma sub_from_drop (k : nat) (s : str) :
  sub_from p repl k s = sub_all p repl (drop k s).
Proof.
  revert k. induction s as [|c t IH]; intros [|k]; try done.
  simpl. apply IH.
Qed.

Lemma sub_all_cons (c : Z) (t : str) :
  sub_all p repl (c :: t) =
    if pmatch p (c :: t)
    then repl ++ sub_all p repl (drop (length p) (c :: t))
    else c :: sub_all p repl t.
Proof.
  unfold sub_all at 1. cbn [sub_from].
  destruct (pmatch p (c :: t)); [|done].
  rewrite sub_from_drop. destruct p; [done|]. done.
Qed.

(** The induction principle that follows the scan of [sub_all]. *)
Lemma sub_all_ind (P : str → str → Prop) :
  P [] [] →
  (∀ c t, pmatch p (c :: t) = true →
          P (drop (length p) (c :: t)) (sub_all p repl (drop (length p) (c :: t))) →
          P (c :: t) (repl ++ sub_all p repl (drop (length p) (c :: t)))) →
  (∀ c t, pmatch p (c :: t) = false →
          P t (sub_all p repl t) → P (c :: t) (c :: sub_all p repl t)) →
  ∀ s, P s (sub_all p repl s).
Proof.
  intros Hnil Hhit Hmiss s.
  remember (length s) as n eqn:Hn. revert s Hn.
  induction n as [n IH] using lt_wf_ind. intros [|c t] Hn; [exact Hnil|].
  rewrite sub_all_cons. destruct (pmatch p (c :: t)) eqn:Hm.
  - apply Hhit; [done|]. eapply IH; [|done].
    rewrite length_drop. destruct p; [done|]. simpl in *. lia.
  - apply Hmiss; [done|]. eapply IH; [|done]. simpl in Hn. lia.
Qed.

Lemma sub_all_id (s : str) : contains p s = false → sub_all p repl s = s.
Proof.
  apply (sub_all_ind (λ s out, contains p s = false → out = s)); [done|..].
  - intros c t Hm _ Hc. simpl in Hc. cbn [pmatch] in Hm.
    apply orb_false_iff in Hc as [Hc _]. destruct p; [done|]. congruence.
  - intros c t Hm IH Hc. cbn [contains] in Hc.
    apply orb_false_iff in Hc as [_ Hc]. by rewrite IH.
Qed.

Lemma sub_all_Forall (Q : Z → Prop) (s : str) :
  Forall Q repl → Forall Q s → Forall Q (sub_all p repl s).
Proof.
  intros Hr.
  apply (sub_all_ind (λ s out, Forall Q s → Forall Q out)); [done|..].
  - intros c t _ IH H. apply Forall_app. split; [done|].
    apply IH. by apply Forall_drop.
  - intros c t _ IH H. inversion H; subst. constructor; auto.
Qed.
End Replacement.

(** What is left of a pattern after a replacement. *)
Section Occurrences.
Variables (p : pattern) (repl : str).
Hypothesis p_nonempty : p ≠ [].

Lemma pmatch_stop (q : pattern) (pre z : str) (h : Z) :
  Forall (λ f, f h = false) q →
  pmatch q (pre ++ h :: z) = pmatch q pre.
Proof.
  revert q. induction pre as [|c pre IH]; intros [|f q] Hq; simpl; try done.
  - inversion Hq; subst. by rewrite H1.
  - inversion Hq; subst. f_equal. by apply IH.
Qed.

Lemma contains_skip (f : Z → bool) (q : pattern) (r x : str) :
  Forall (λ c, f c = false) r →
  contains (f :: q) (r ++ x) = contains (f :: q) x.
Proof.
  induction 1 as [|c r Hc _ IH]; [done|].
  cbn [app contains pmatch]. by rewrite Hc, IH.
Qed.

Lemma contains_suffix (q : pattern) (l1 l2 : str) :
  contains q (l1 ++ l2) = false → contains q l2 = false.
Proof.
  induction l1 as [|c l1 IH]; [done|]. cbn [app contains].
  intros [_ H]%orb_false_iff. auto.
Qed.

Lemma pmatch_sub_all (q : pattern) (s pre : str) :
  inert q repl →
  pmatch q (pre ++ sub_all p repl s) = true → pmatch q (pre ++ s) = true.
Proof.
  intros (f & q' & h & r' & -> & Hr & Hf & Hh). revert pre.
  apply (sub_all_ind p repl p_nonempty
           (λ s out, ∀ pre, pmatch (f :: q') (pre ++ out) = true →
                            pmatch (f :: q') (pre ++ s) = true)); [done|..].
  - intros c t _ _ pre. rewrite Hr. cbn [app]. rewrite pmatch_stop by done.
    apply pmatch_app.
  - intros c t _ IH pre H.
    rewrite (cons_middle c pre), app_assoc in H. apply IH in H.
    by rewrite <- app_assoc in H.
Qed.

(** After the replacement no match of [q] is left, when every match of
    [q] in the input is a match of the replaced pattern and the
    replacement text is inert for [q]. *)
Lemma contains_sub_all (q : pattern) (s : str) :
  inert q repl →
  (∀ l1 l2, s = l1 ++ l2 → pmatch q l2 = true → pmatch p l2 = true) →
  contains q (sub_all p repl s) = false.
Proof.
  intros Hin. pose proof Hin as (f & q' & h & r' & -> & Hr & Hf & Hh).
  apply (sub_all_ind p repl p_nonempty
           (λ s out, (∀ l1 l2, s = l1 ++ l2 → pmatch (f :: q') l2 = true →
                               pmatch p l2 = true) →
                     contains (f :: q') out = false)).
  - intros _. done.
  - intros c t _ IH H. rewrite contains_skip by done. apply IH.
    intros l1 l2 E. apply (H (take (length p) (c :: t) ++ l1)).
    by rewrite <- app_assoc, <- E, take_drop.
  - intros c t Hm IH H. cbn [contains]. apply orb_false_iff. split.
    + destruct (pmatch (f :: q') (c :: sub_all p repl t)) eqn:E; [|done].
      apply (pmatch_sub_all _ t [c] Hin) in E. apply (H [] (c :: t) eq_refl) in E.
      congruence.
    + apply IH. intros l1 l2 ->. apply (H (c :: l1)). done.
Qed.

Lemma contains_sub_all_self (s : str) :
  inert p repl → contains p (sub_all p repl s) = false.
Proof. intros H. apply contains_sub_all; auto. Qed.

Lemma contains_sub_all_other (q : pattern) (s : str) :
  inert q repl → contains q s = false → contains q (sub_all p repl s) = false.
Proof.
  intros H Hc. apply contains_sub_all; [done|].
  intros l1 l2 -> Hm. apply contains_suffix in Hc.
  destruct l2; simpl in Hc; apply orb_false_iff in Hc as [Hc _];
    cbn [pmatch] in Hm; congruence.
Qed.
End Occurrences.

(** Replacement around a block of text that no match can touch from
    outside. *)
Section Blocks.
Variables (p : pattern) (repl : str).
Hypothesis p_nonempty : p ≠ [].

Lemma sub_all_before (u x y : str) :
  no_straddle p u →
  sub_all p repl (x ++ u ++ y) = sub_all p repl x ++ sub_all p repl (u ++ y).
Proof.
  intros Hns.
  apply (sub_all_ind p repl p_nonempty
           (λ x out, sub_all p repl (x ++ u ++ y) = out ++ sub_all p repl (u ++ y)));
    [done|..].
  - intros c t Hm IH. pose proof (pmatch_length _ _ Hm) as Hl.
    cbn [app]. rewrite sub_all_cons by done.
    change (c :: t ++ u ++ y) with ((c :: t) ++ u ++ y).
    rewrite (pmatch_app _ _ _ Hm), drop_app_le by done.
    by rewrite IH, app_assoc.
  - intros c t Hm IH. cbn [app]. rewrite sub_all_cons by done.
    change (c :: t ++ u ++ y) with ((c :: t) ++ u ++ y).
    assert (pmatch p ((c :: t) ++ u ++ y) = false) as ->; [|by rewrite IH].
    destruct (decide (length p ≤ length (c :: t))%nat) as [Hl|Hl].
    + by rewrite pmatch_long.
    + apply Hns; [done|lia].
Qed.

Lemma sub_all_hit (u y : str) :
  pmatch p u = true → length u = length p →
  sub_all p repl (u ++ y) = repl ++ sub_all p repl y.
Proof.
  intros Hm Hl. destruct u as [|c u]; [by destruct p|].
  cbn [app]. rewrite sub_all_cons by done.
  change (c :: u ++ y) with ((c :: u) ++ y).
  rewrite (pmatch_app _ _ _ Hm), drop_app_le by lia.
  by rewrite <- Hl, drop_all.
Qed.

Lemma sub_all_miss (u y : str) :
  no_inner p u → sub_all p repl (u ++ y) = u ++ sub_all p repl y.
Proof.
  intros Hni.
  assert (∀ l k, drop k u = l →
                 sub_all p repl (l ++ y) = l ++ sub_all p repl y) as H.
  { induction l as [|c l IH]; intros k Hk; [done|].
    cbn [app]. rewrite sub_all_cons by done.
    change (c :: l ++ y) with ((c :: l) ++ y).
    assert (pmatch p ((c :: l) ++ y) = false) as ->.
    { rewrite <- Hk. apply Hni.
      destruct (decide (k < length u)%nat); [done|].
      rewrite drop_ge in Hk by lia. done. }
    f_equal. apply (IH (S k)).
    by rewrite <- (Nat.add_1_r k), <- drop_drop, Hk. }
  by apply (H u 0%nat).
Qed.

(** A block that the pattern matches is replaced, whatever surrounds it. *)
Lemma sub_all_block_hit (u x y : str) :
  no_straddle p u → pmatch p u = true → length u = length p →
  sub_all p repl (x ++ u ++ y) = sub_all p repl x ++ repl ++ sub_all p repl y.
Proof. intros. by rewrite sub_all_before, sub_all_hit. Qed.

(** A block that no match touches is left as it is. *)
Lemma sub_all_block_miss (u x y : str) :
  no_straddle p u → no_inner p u →
  sub_all p repl (x ++ u ++ y) = sub_all p repl x ++ u ++ sub_all p repl y.
Proof. intros. by rewrite sub_all_before, sub_all_miss. Qed.
End Blocks.

(** The checks on character classes are sound. *)
Section Classes.
Lemma covers_pmatch cs p s :
  covers cs p → pmatch p s = true → pmatch (map cls cs) s = true.
Proof.
  intros H. revert s. induction H as [|f l p cs Hf _ IH]; intros [|c s]; simpl; try done.
  intros [H1 H2]%andb_true_iff. apply andb_true_iff. auto.
Qed.

Lemma covers_length cs p : covers cs p → length p = length cs.
Proof. apply Forall2_length. Qed.

Lemma covers_lit old : covers (map (λ c, [c]) old) (lit old).
Proof.
  induction old as [|c old IH]; constructor; [|done].
  intros x Hx. unfold cls. simpl. apply Z.eqb_eq in Hx as ->.
  by rewrite Z.eqb_refl.
Qed.

Lemma compatible_sound a b s :
  pmatch (map cls a) s = true → pmatch (map cls b) s = true →
  compatible a b = true.
Proof.
  revert b s. induction a as [|x a IH]; intros [|y b] [|c s]; simpl; try done.
  intros [H1 H2]%andb_true_iff [H3 H4]%andb_true_iff.
  apply andb_true_iff. split; [|eauto].
  apply existsb_exists. exists c. split; [|done].
  unfold cls in H1. apply existsb_exists in H1 as (d & Hd & ->%Z.eqb_eq). done.
Qed.

Lemma pmatch_drop (q : pattern) (x w : str) :
  pmatch q (x ++ w) = true → pmatch (drop (length x) q) w = true.
Proof.
  revert q. induction x as [|c x IH]; intros [|f q]; simpl; try done.
  intros [_ H]%andb_true_iff. auto.
Qed.

Lemma pmatch_drop_both (q : pattern) (u z : str) (k : nat) :
  pmatch q u = true → pmatch (drop k q) (drop k u ++ z) = true.
Proof.
  revert q u. induction k as [|k IH]; intros q u H.
  - rewrite !drop_0. by apply pmatch_app.
  - destruct q as [|f q]; [by rewrite drop_nil; destruct (drop (S k) u ++ z)|].
    destruct u as [|c u]; [done|]. simpl in *.
    apply andb_true_iff in H as [_ H]. auto.
Qed.

Lemma no_straddle_by_check a b p q u :
  covers a p → covers b q → pmatch q u = true →
  no_straddle_check a b = true → no_straddle p u.
Proof.
  intros Ha Hb Hu Hc x z Hx Hl.
  destruct (pmatch p (x ++ u ++ z)) eqn:E; [|done]. exfalso.
  unfold no_straddle_check in Hc. rewrite forallb_forall in Hc.
  assert (In (length x) (seq 1 (length a - 1))) as Hin.
  { apply in_seq. rewrite <- (covers_length _ _ Ha).
    destruct x; [done|]. simpl in *. lia. }
  apply Hc in Hin. apply negb_true_iff in Hin.
  apply (covers_pmatch _ _ _ Ha) in E. apply pmatch_drop in E.
  rewrite skipn_map in E.
  pose proof (covers_pmatch _ _ _ Hb (pmatch_app _ _ z Hu)) as E2.
  by rewrite (compatible_sound _ _ _ E E2) in Hin.
Qed.

Lemma no_inner_by_check a b p q u :
  covers a p → covers b q → pmatch q u = true → length u = length q →
  no_inner_check a b = true → no_inner p u.
Proof.
  intros Ha Hb Hu Hlen Hc k z Hk.
  destruct (pmatch p (drop k u ++ z)) eqn:E; [|done]. exfalso.
  unfold no_inner_check in Hc. rewrite forallb_forall in Hc.
  assert (In k (seq 0 (length b))) as Hin.
  { apply in_seq. rewrite <- (covers_length _ _ Hb). lia. }
  apply Hc in Hin. apply negb_true_iff in Hin.
  apply (covers_pmatch _ _ _ Ha) in E.
  apply (covers_pmatch _ _ _ Hb) in Hu.
  apply (pmatch_drop_both _ _ z k) in Hu. rewrite skipn_map in Hu.
  by rewrite (compatible_sound _ _ _ E Hu) in Hin.
Qed.

Lemma covers_false (f : Z → bool) (l : list Z) (c : Z) :
  (∀ c, f c = true → cls l c = true) → cls l c = false → f c = false.
Proof. intros H Hc. destruct (f c) eqn:E; [|done]. apply H in E. congruence. Qed.

Lemma inert_by_check (cs : list (list Z)) q r :
  covers cs q → inert_check cs r = true → inert q r.
Proof.
  intros H Hc. destruct H as [|f l q cs Hf Hq]; [done|].
  destruct r as [|h r]; [done|]. cbn [inert_check] in Hc.
  apply andb_true_iff in Hc as [H1 H2].
  exists f, q, h, r. split_and!; try done.
  - rewrite forallb_forall in H1. apply Forall_forall. intros c Hc.
    apply list_elem_of_In, H1, negb_true_iff in Hc. by apply (covers_false f l).
  - rewrite forallb_forall in H2. constructor.
    + apply (covers_false f l); [done|]. apply negb_true_iff, H2. by left.
    + clear Hf. induction Hq as [|g m q cs Hg _ IH]; constructor.
      * apply (covers_false g m); [done|]. apply negb_true_iff, H2. right. by left.
      * apply IH. intros y [Hy|Hy]; apply H2; [by left|right; by right].
Qed.
End Classes.

(** The classes of the three patterns of the script. *)
Section Targets.
Lemma domain_pat_eq : domain_pat = map ci_literal domain_old.
Proof. reflexivity. Qed.

Lemma sre_lower_cased (p : Z) :
  iscased_ascii p = true → 97 ≤ sre_lower p ≤ 122.
Proof. unfold iscased_ascii, sre_lower. intros H. repeat case_match; lia. Qed.

Lemma sre_lower_inv (c lo : Z) :
  sre_lower c = lo →
  c = lo ∨ (c = lo - 32 ∧ 97 ≤ lo ≤ 122) ∨ (c = 304 ∧ lo = 105) ∨ (c = 8490 ∧ lo = 107).
Proof. unfold sre_lower. repeat case_match; lia. Qed.

Lemma ci_class_covers (p c : Z) : ci_literal p c = true → cls (ci_class p) c = true.
Proof.
  unfold ci_literal, ci_class, cls.
  destruct (iscased_ascii p) eqn:Hp.
  - apply sre_lower_cased in Hp. generalize dependent (sre_lower p). intros lo Hlo.
    cbn zeta. intros [H|H]%orb_true_iff.
    + apply Z.eqb_eq, sre_lower_inv in H. cbn [app existsb].
      destruct H as [->|[[-> _]|[[-> ->]|[-> ->]]]]; rewrite ?Z.eqb_refl, ?orb_true_r; done.
    + unfold ignorecase_fixes in *.
      destruct (Z.eqb_spec lo 105) as [->|?].
      { simpl in H. rewrite orb_false_r in H. apply Z.eqb_eq in H.
        apply sre_lower_inv in H. simpl.
        destruct H as [->|[[-> ?]|[[-> ?]|[-> ?]]]]; (done || lia). }
      destruct (Z.eqb_spec lo 107) as [->|?]; [done|].
      destruct (Z.eqb_spec lo 115) as [->|?]; [|done].
      simpl in H. rewrite orb_false_r in H. apply Z.eqb_eq in H.
      apply sre_lower_inv in H. simpl.
      destruct H as [->|[[-> ?]|[[-> ?]|[-> ?]]]]; (done || lia).
  - simpl. intros ->%Z.eqb_eq. by rewrite Z.eqb_refl.
Qed.

Lemma covers_ci (l : str) : covers (map ci_class l) (map ci_literal l).
Proof. induction l; constructor; [apply ci_class_covers|done]. Qed.

Lemma covers_domain : covers domain_cls domain_pat.
Proof. rewrite domain_pat_eq. apply covers_ci. Qed.

Lemma covers_brand : covers (lit_cls brand_old) brand_pat.
Proof. apply covers_lit. Qed.

Lemma covers_slug : covers (lit_cls slug_old) slug_pat.
Proof. apply covers_lit. Qed.
End Targets.

(** * The transformation: no target survives, clean texts are fixed *)
Section Transform.
Lemma brand_pat_nonempty : brand_pat ≠ [].
Proof. done. Qed.
Lemma slug_pat_nonempty : slug_pat ≠ [].
Proof. done. Qed.
Lemma domain_pat_nonempty : domain_pat ≠ [].
Proof. done. Qed.

Lemma transform_unfold (s : str) :
  transform s =
    sub_all domain_pat domain_new
      (sub_all slug_pat slug_new (sub_all brand_pat brand_new s)).
Proof. reflexivity. Qed.

Lemma inert_brand_brand : inert brand_pat brand_new.
Proof. apply (inert_by_check _ _ _ covers_brand). by vm_compute. Qed.
Lemma inert_brand_slug : inert brand_pat slug_new.
Proof. apply (inert_by_check _ _ _ covers_brand). by vm_compute. Qed.
Lemma inert_brand_domain : inert brand_pat domain_new.
Proof. apply (inert_by_check _ _ _ covers_brand). by vm_compute. Qed.
Lemma inert_slug_slug : inert slug_pat slug_new.
Proof. apply (inert_by_check _ _ _ covers_slug). by vm_compute. Qed.
Lemma inert_slug_domain : inert slug_pat domain_new.
Proof. apply (inert_by_check _ _ _ covers_slug). by vm_compute. Qed.
Lemma inert_domain_domain : inert domain_pat domain_new.
Proof. apply (inert_by_check _ _ _ covers_domain). by vm_compute. Qed.

Lemma transform_no_brand (s : str) : contains brand_pat (transform s) = false.
Proof.
  rewrite transform_unfold.
  apply contains_sub_all_other; [done|apply inert_brand_domain|].
  apply contains_sub_all_other; [done|apply inert_brand_slug|].
  apply contains_sub_all_self; [done|apply inert_brand_brand].
Qed.

Lemma transform_no_slug (s : str) : contains slug_pat (transform s) = false.
Proof.
  rewrite transform_unfold.
  apply contains_sub_all_other; [done|apply inert_slug_domain|].
  apply contains_sub_all_self; [done|apply inert_slug_slug].
Qed.

Lemma transform_no_domain (s : str) : contains domain_pat (transform s) = false.
Proof.
  rewrite transform_unfold.
  apply contains_sub_all_self; [done|apply inert_domain_domain].
Qed.

Lemma transform_fixed (s : str) :
  contains brand_pat s = false → contains slug_pat s = false →
  contains domain_pat s = false → transform s = s.
Proof.
  intros H1 H2 H3. rewrite transform_unfold.
  rewrite (sub_all_id brand_pat), (sub_all_id slug_pat), (sub_all_id domain_pat); done.
Qed.

Lemma transform_idem (s : str) : transform (transform s) = transform s.
Proof.
  apply transform_fixed;
    [apply transform_no_brand|apply transform_no_slug|apply transform_no_domain].
Qed.

(** Pattern matches and occurrences. *)
Lemma contains_true (q : pattern) (s : str) :
  contains q s = true ↔ ∃ l1 l2, s = l1 ++ l2 ∧ pmatch q l2 = true.
Proof.
  split.
  - induction s as [|c s IH]; cbn [contains].
    + rewrite orb_false_r. intros H. by exists [], [].
    + intros [H|H]%orb_true_iff; [by exists [], (c :: s)|].
      destruct (IH H) as (l1 & l2 & -> & Hm). by exists (c :: l1), l2.
  - intros (l1 & l2 & -> & Hm). induction l1 as [|c l1 IH].
    + destruct l2; cbn [app contains]; by rewrite Hm.
    + cbn [app contains]. by rewrite IH, orb_true_r.
Qed.

Lemma pmatch_map (test : Z → Z → bool) (needle s : str) :
  pmatch (map test needle) s = true ↔
  ∃ v l2, s = v ++ l2 ∧ Forall2 (λ p c, test p c = true) needle v.
Proof.
  revert s. induction needle as [|p needle IH]; intros s; cbn [map pmatch].
  - split; [intros _; by exists [], s|done].
  - destruct s as [|c s].
    + split; [done|]. intros (v & l2 & E & H). inversion H; subst. done.
    + rewrite andb_true_iff, IH. split.
      * intros (Hc & v & l2 & -> & H). exists (c :: v), l2. split; [done|by constructor].
      * intros (v & l2 & E & H). inversion H; subst. simplify_eq/=.
        split; [done|]. by eexists _, _.
Qed.

Lemma str_in_occurs (needle s : str) : str_in needle s = true ↔ occurs needle s.
Proof.
  unfold str_in, occurs, lit. rewrite contains_true. split.
  - intros (l1 & l2 & -> & (v & l3 & -> & H)%pmatch_map).
    exists l1, l3. do 2 f_equal. clear -H.
    induction H as [|???? ->%Z.eqb_eq]; by f_equal.
  - intros (l1 & l2 & ->). exists l1, (needle ++ l2). split; [done|].
    apply pmatch_map. exists needle, l2. split; [done|].
    induction needle; constructor; [apply Z.eqb_refl|done].
Qed.

Lemma contains_occurs_ci (needle s : str) :
  contains (map ci_literal needle) s = true ↔ occurs_ci needle s.
Proof.
  unfold occurs_ci. rewrite contains_true. split.
  - intros (l1 & l2 & -> & (v & l3 & -> & H)%pmatch_map). by exists l1, v, l3.
  - intros (l1 & v & l2 & -> & H). exists l1, (v ++ l2). split; [done|].
    apply pmatch_map. by exists v, l2.
Qed.

Lemma not_occurs (needle s : str) : ¬ occurs needle s ↔ contains (lit needle) s = false.
Proof. rewrite <- str_in_occurs. unfold str_in. by destruct (contains _ _). Qed.

Lemma not_occurs_ci (s : str) : ¬ occurs_ci domain_old s ↔ contains domain_pat s = false.
Proof. rewrite <- contains_occurs_ci, <- domain_pat_eq. by destruct (contains _ _). Qed.
End Transform.

(** Each target is replaced where it stands, whatever surrounds it. *)
Section TransformBlocks.
Lemma block_hit_by_check a p u r x y :
  p ≠ [] → covers a p → pmatch p u = true → length u = length p →
  no_straddle_check a a = true →
  sub_all p r (x ++ u ++ y) = sub_all p r x ++ r ++ sub_all p r y.
Proof.
  intros Hp Ha Hu Hl Hc. apply sub_all_block_hit; try done.
  by apply (no_straddle_by_check a a p p).
Qed.

Lemma block_miss_by_check a b p q u r x y :
  p ≠ [] → covers a p → covers b q → pmatch q u = true → length u = length q →
  no_straddle_check a b = true → no_inner_check a b = true →
  sub_all p r (x ++ u ++ y) = sub_all p r x ++ u ++ sub_all p r y.
Proof.
  intros Hp Ha Hb Hu Hl Hc1 Hc2. apply sub_all_block_miss; try done.
  - by apply (no_straddle_by_check a b p q).
  - by apply (no_inner_by_check a b p q).
Qed.

Lemma pmatch_lit_self (u : str) : pmatch (lit u) u = true.
Proof. induction u; simpl; [done|]. by rewrite Z.eqb_refl. Qed.

Lemma casing_variant_match (v : str) :
  casing_variant domain_old v → pmatch domain_pat v = true ∧ length v = length domain_pat.
Proof.
  intros H. split.
  - rewrite domain_pat_eq. apply pmatch_map. exists v, []. by rewrite app_nil_r.
  - apply Forall2_length in H. rewrite <- H. done.
Qed.

Lemma transform_brand_block (x y : str) :
  transform (x ++ brand_old ++ y) = transform x ++ brand_new ++ transform y.
Proof.
  rewrite !transform_unfold.
  rewrite (block_hit_by_check (lit_cls brand_old) brand_pat);
    [|done|apply covers_brand|apply pmatch_lit_self|done|by vm_compute].
  rewrite (block_miss_by_check (lit_cls slug_old) (lit_cls brand_new) slug_pat (lit brand_new));
    [|done|apply covers_slug|apply covers_lit|apply pmatch_lit_self
     |done|by vm_compute|by vm_compute].
  rewrite (block_miss_by_check domain_cls (lit_cls brand_new) domain_pat (lit brand_new));
    [|done|apply covers_domain|apply covers_lit|apply pmatch_lit_self
     |done|by vm_compute|by vm_compute].
  done.
Qed.

Lemma transform_slug_block (x y : str) :
  transform (x ++ slug_old ++ y) = transform x ++ slug_new ++ transform y.
Proof.
  rewrite !transform_unfold.
  rewrite (block_miss_by_check (lit_cls brand_old) (lit_cls slug_old) brand_pat slug_pat);
    [|done|apply covers_brand|apply covers_slug|apply pmatch_lit_self
     |done|by vm_compute|by vm_compute].
  rewrite (block_hit_by_check (lit_cls slug_old) slug_pat);
    [|done|apply covers_slug|apply pmatch_lit_self|done|by vm_compute].
  rewrite (block_miss_by_check domain_cls (lit_cls slug_new) domain_pat (lit slug_new));
    [|done|apply covers_domain|apply covers_lit|apply pmatch_lit_self
     |done|by vm_compute|by vm_compute].
  done.
Qed.

Lemma transform_domain_block (v x y : str) :
  casing_variant domain_old v →
  transform (x ++ v ++ y) = transform x ++ domain_new ++ transform y.
Proof.
  intros [Hm Hl]%casing_variant_match. rewrite !transform_unfold.
  rewrite (block_miss_by_check (lit_cls brand_old) domain_cls brand_pat domain_pat);
    [|done|apply covers_brand|apply covers_domain|done|done|by vm_compute|by vm_compute].
  rewrite (block_miss_by_check (lit_cls slug_old) domain_cls slug_pat domain_pat);
    [|done|apply covers_slug|apply covers_domain|done|done|by vm_compute|by vm_compute].
  rewrite (block_hit_by_check domain_cls domain_pat);
    [|done|apply covers_domain|done|done|by vm_compute].
  done.
Qed.
End TransformBlocks.

(** * Decoding, newlines and encoding *)
Section Codec.
Lemma is_scalar_spec (c : Z) :
  scalar c ↔ 0 ≤ c < 1114112 ∧ ¬ (55296 ≤ c < 57344).
Proof. unfold scalar, is_scalar. lia. Qed.

(** Every decoded code point is either a byte below 128 of the input,
    taken over as it is, or a scalar value from 128 on. *)
Lemma utf8_decode_chars (bs : list Z) :
  Forall (λ c, (0 ≤ c < 128 ∧ c ∈ bs) ∨ (128 ≤ c ∧ scalar c)) (utf8_decode_ignore bs).
Proof.
  remember (length bs) as n eqn:Hn. revert bs Hn.
  induction n as [n IH] using lt_wf_ind. intros bs Hn.
  assert (∀ r l, bs = l ++ r → l ≠ [] →
                 Forall (λ c, (0 ≤ c < 128 ∧ c ∈ bs) ∨ (128 ≤ c ∧ scalar c))
                        (utf8_decode_ignore r)) as IH'.
  { intros r l -> Hl. eapply Forall_impl.
    - eapply (IH (length r)); [|done]. rewrite Hn, length_app.
      destruct l; [done|]. simpl. lia.
    - intros c [[? ?]|?]; [left|by right]. split; [done|].
      apply elem_of_app. by right. }
  clear IH Hn.
  destruct bs as [|b1 r1]; [constructor|]. cbn [utf8_decode_ignore].
  pose proof (IH' r1 [b1] eq_refl ltac:(done)) as H1.
  destruct ((0 <=? b1) && (b1 <? 128)) eqn:E1.
  { constructor; [|done]. left. split; [lia|by left]. }
  destruct (b1 <? 194) eqn:E2; [done|].
  destruct (b1 <? 224) eqn:E3.
  { destruct r1 as [|b2 r2]; [constructor|].
    destruct (is_continuation b2) eqn:C2; [|done].
    constructor; [|by apply (IH' r2 [b1; b2])].
    right. rewrite is_scalar_spec. unfold is_continuation in C2. lia. }
  destruct (b1 <? 240) eqn:E4.
  { destruct r1 as [|b2 r2]; [constructor|].
    destruct (negb (is_continuation b2) || (if b2 <? 160 then b1 =? 224 else b1 =? 237)) eqn:C2;
      [done|].
    destruct r2 as [|b3 r3]; [constructor|].
    pose proof (IH' (b3 :: r3) [b1; b2] eq_refl ltac:(done)) as H2.
    destruct (is_continuation b3) eqn:C3; [|done].
    constructor; [|by apply (IH' r3 [b1; b2; b3])].
    right. rewrite is_scalar_spec. unfold is_continuation in *.
    destruct (b2 <? 160) eqn:E6; lia. }
  destruct (b1 <? 245) eqn:E5; [|done].
  destruct r1 as [|b2 r2]; [constructor|].
  destruct (negb (is_continuation b2) || (if b2 <? 144 then b1 =? 240 else b1 =? 244)) eqn:C2;
    [done|].
  destruct r2 as [|b3 r3]; [constructor|].
  pose proof (IH' (b3 :: r3) [b1; b2] eq_refl ltac:(done)) as H2.
  destruct (negb (is_continuation b3)) eqn:C3; [done|].
  destruct r3 as [|b4 r4]; [constructor|].
  pose proof (IH' (b4 :: r4) [b1; b2; b3] eq_refl ltac:(done)) as H3.
  destruct (is_continuation b4) eqn:C4; [|done].
  constructor; [|by apply (IH' r4 [b1; b2; b3; b4])].
  right. rewrite is_scalar_spec. unfold is_continuation in *.
  destruct (b2 <? 144) eqn:E6; lia.
Qed.

Lemma utf8_decode_scalar (bs : list Z) : Forall scalar (utf8_decode_ignore bs).
Proof.
  eapply Forall_impl; [apply utf8_decode_chars|].
  intros c [[? _]|[_ ?]]; [|done]. apply is_scalar_spec. lia.
Qed.

Lemma utf8_decode_no_cr (bs : list Z) :
  13 ∉ bs → Forall not_cr (utf8_decode_ignore bs).
Proof.
  intros Hcr. eapply Forall_impl; [apply utf8_decode_chars|].
  intros c [[_ Hin]|[? _]]; unfold not_cr; [by intros ->|lia].
Qed.

Lemma utf8_decode_encode_char (c : Z) (cb r : list Z) :
  utf8_encode_char c = Some cb →
  utf8_decode_ignore (cb ++ r) = c :: utf8_decode_ignore r.
Proof.
  unfold utf8_encode_char. destruct (negb (is_scalar c)) eqn:Hs; [done|].
  assert (scalar c) as [Hr Hn]%is_scalar_spec by (unfold scalar; lia). clear Hs.
  pose proof (Z.div_mod c 64 ltac:(lia)) as D1.
  pose proof (Z.mod_pos_bound c 64 ltac:(lia)) as M1.
  pose proof (Z.div_mod (c / 64) 64 ltac:(lia)) as D2.
  pose proof (Z.mod_pos_bound (c / 64) 64 ltac:(lia)) as M2.
  pose proof (Z.div_mod (c / 4096) 64 ltac:(lia)) as D3.
  pose proof (Z.mod_pos_bound (c / 4096) 64 ltac:(lia)) as M3.
  assert (c / 4096 = c / 64 / 64) as Q2 by (rewrite Z.div_div by lia; done).
  assert (c / 262144 = c / 4096 / 64) as Q3 by (rewrite Z.div_div by lia; done).
  rewrite Q3 in *. clear Q3.
  set (q3 := c / 4096 / 64) in *. set (m3 := (c / 4096) mod 64) in *.
  set (q2 := c / 4096) in *. set (m2 := (c / 64) mod 64) in *.
  set (q1 := c / 64) in *. set (m1 := c mod 64) in *.
  clearbody q3 m3 q2 m2 q1 m1. intros Hcb.
  destruct (c <? 128) eqn:E1.
  { injection Hcb as <-. cbn [app utf8_decode_ignore].
    replace ((0 <=? c) && (c <? 128)) with true by lia. done. }
  destruct (c <? 2048) eqn:E2.
  { injection Hcb as <-. cbn [app utf8_decode_ignore]. unfold is_continuation.
    replace ((0 <=? 192 + q1) && (192 + q1 <? 128)) with false by lia.
    replace (192 + q1 <? 194) with false by lia.
    replace (192 + q1 <? 224) with true by lia.
    replace ((128 <=? 128 + m1) && (128 + m1 <? 192)) with true by lia.
    f_equal. lia. }
  destruct (c <? 65536) eqn:E3.
  { injection Hcb as <-. cbn [app utf8_decode_ignore]. unfold is_continuation.
    replace ((0 <=? 224 + q2) && (224 + q2 <? 128)) with false by lia.
    replace (224 + q2 <? 194) with false by lia.
    replace (224 + q2 <? 224) with false by lia.
    replace (224 + q2 <? 240) with true by lia.
    replace ((128 <=? 128 + m2) && (128 + m2 <? 192)) with true by lia.
    replace ((128 <=? 128 + m1) && (128 + m1 <? 192)) with true by lia.
    replace (if 128 + m2 <? 160 then 224 + q2 =? 224 else 224 + q2 =? 237)
      with false by (destruct (128 + m2 <? 160) eqn:?; lia).
    cbn. f_equal. lia. }
  injection Hcb as <-. cbn [app utf8_decode_ignore]. unfold is_continuation.
  replace ((0 <=? 240 + q3) && (240 + q3 <? 128)) with false by lia.
  replace (240 + q3 <? 194) with false by lia.
  replace (240 + q3 <? 224) with false by lia.
  replace (240 + q3 <? 240) with false by lia.
  replace (240 + q3 <? 245) with true by lia.
  replace ((128 <=? 128 + m3) && (128 + m3 <? 192)) with true by lia.
  replace ((128 <=? 128 + m2) && (128 + m2 <? 192)) with true by lia.
  replace ((128 <=? 128 + m1) && (128 + m1 <? 192)) with true by lia.
  replace (if 128 + m3 <? 144 then 240 + q3 =? 240 else 240 + q3 =? 244)
    with false by (destruct (128 + m3 <? 144) eqn:?; lia).
  cbn. f_equal. lia.
Qed.

Lemma utf8_decode_encode (s : str) (bs : list Z) :
  utf8_encode s = Some bs → utf8_decode_ignore bs = s.
Proof.
  revert bs. induction s as [|c s IH]; intros bs; cbn [utf8_encode].
  - by intros [= <-].
  - destruct (utf8_encode_char c) as [cb|] eqn:Ec; [|done].
    destruct (utf8_encode s) as [r|]; [|done]. intros [= <-].
    rewrite (utf8_decode_encode_char c cb r Ec). f_equal. by apply IH.
Qed.

Lemma utf8_encode_total (s : str) :
  Forall scalar s → is_Some (utf8_encode s).
Proof.
  induction 1 as [|c s Hc _ [r IH]]; cbn [utf8_encode]; [done|].
  rewrite IH. unfold utf8_encode_char. unfold scalar in Hc. rewrite Hc. cbn.
  repeat case_match; done.
Qed.

Lemma translate_newlines_id (s : str) :
  Forall not_cr s → translate_newlines s = s.
Proof.
  induction 1 as [|c s Hc _ IH]; [done|]. cbn [translate_newlines].
  unfold not_cr in Hc. replace (c =? 13) with false by lia. by rewrite IH.
Qed.

Lemma translate_newlines_Forall (Q : Z → Prop) (s : str) :
  Q 10 → Forall Q s → Forall Q (translate_newlines s).
Proof.
  intros Q10. remember (length s) as n eqn:Hn. revert s Hn.
  induction n as [n IH] using lt_wf_ind. intros [|c t] Hn H; [done|].
  inversion H as [|?? Hc Ht]; subst. cbn [translate_newlines].
  destruct (c =? 13).
  - constructor; [done|]. destruct t as [|d t']; [done|].
    inversion Ht; subst.
    destruct (d =? 10); (eapply IH; [|done|done]); simpl; lia.
  - constructor; [done|]. eapply IH; [|done|done]. simpl. lia.
Qed.

Lemma translate_newlines_no_cr (s : str) : Forall not_cr (translate_newlines s).
Proof.
  remember (length s) as n eqn:Hn. revert s Hn.
  induction n as [n IH] using lt_wf_ind. intros [|c t] ->; [done|].
  cbn [translate_newlines]. destruct (c =? 13) eqn:E.
  - constructor; [done|]. destruct t as [|d t']; [done|].
    destruct (d =? 10); (eapply IH; [|done]); simpl; lia.
  - constructor; [unfold not_cr; lia|]. eapply IH; [|done]. simpl. lia.
Qed.

Lemma read_text_scalar (bs : list Z) : Forall scalar (read_text bs).
Proof. apply translate_newlines_Forall; [done|apply utf8_decode_scalar]. Qed.

Lemma read_text_no_cr (bs : list Z) : Forall not_cr (read_text bs).
Proof. apply translate_newlines_no_cr. Qed.

Lemma read_text_encode (t : str) (bs : list Z) :
  Forall not_cr t → utf8_encode t = Some bs → read_text bs = t.
Proof.
  intros Hcr He. unfold read_text. rewrite (utf8_decode_encode t bs He).
  by apply translate_newlines_id.
Qed.
End Codec.

(** * The script as a fold over the visited paths *)

(** The effect of [rebrand_file] on the world, by verdict, when standard
    output accepts the error line. *)
Section Program.
Local Opaque cps read_text utf8_encode str_replace re_sub_ignorecase.

Lemma rebrand_file_spec (path : str) (w : world) :
  rebrand_file path w =
    let v := verdict_of (w_files w !! path) in
    (Ret (updated v),
     World (w_listing w) (files_after path v (w_files w))
           (w_stdout w ++ errors_of path v) (w_trace w ++ opens_of path v)).
Proof.
  unfold rebrand_file, try_except, rebrand_body, open_read, open_write.
  unfold mbind, M_bind, mret, M_ret, raise, log_event, get_file, put_file, print.
  unfold verdict_of, transform. cbn.
  destruct (w_files w !! path) as [f|] eqn:Hf; cbn; [|reflexivity].
  destruct (f_read_err f) as [m|] eqn:Hr; cbn; [reflexivity|].
  destruct (str_eqb _ _) eqn:He; cbn; [by rewrite app_nil_r|].
  rewrite Hf. cbn. destruct (f_write_err f) as [m|]; cbn.
  { rewrite <- app_assoc. reflexivity. }
  destruct (utf8_encode _); cbn; rewrite Hr, <- ?app_assoc, ?app_nil_r; reflexivity.
Qed.
End Program.

(** The loops of [main] fold [visit] over [walk]; what [report] prints. *)
Section Scan.
Local Opaque cps read_text utf8_encode str_replace re_sub_ignorecase base_dir.

Lemma starts_with_app (p s : str) : starts_with p (p ++ s) = true.
Proof. unfold starts_with, str_eqb. rewrite take_app_length. by apply bool_decide_eq_true. Qed.

Lemma relative_to_join (rel : str) (w : world) :
  relative_to (path_join base_dir rel) base_dir w = (Ret rel, w).
Proof.
  unfold relative_to, path_join. rewrite app_assoc, starts_with_app.
  rewrite drop_app_length'; [done|].
  rewrite length_app. simpl. lia.
Qed.

Lemma drop_join (rel : str) : drop (length base_dir + 1) (path_join base_dir rel) = rel.
Proof.
  unfold path_join. rewrite app_assoc. rewrite drop_app_length'; [done|].
  rewrite length_app. simpl. lia.
Qed.

Lemma visit_listing (st : world * list str) (paths : list str) :
  w_listing (foldl visit st paths).1 = w_listing st.1.
Proof.
  revert st. induction paths as [|p paths IH]; intros st; [done|].
  cbn [foldl]. rewrite IH. unfold visit. by destruct (should_skip p).
Qed.

Lemma for_each_visit (paths : list str) (st : world * list str) :
  Forall under_base paths →
  for_each paths
    (fun (file_path : str) (files_updated : list str) =>
       if should_skip file_path then mret files_updated
       else
         changed ← rebrand_file file_path;
         if (changed : bool) then
           rel ← relative_to file_path base_dir;
           mret (files_updated ++ [rel])
         else mret files_updated) st.2 st.1
  = (Ret (foldl visit st paths).2, (foldl visit st paths).1).
Proof.
  intros H. revert st. induction H as [|p paths [rel ->] _ IH]; intros [w acc]; [done|].
  cbn [for_each foldl fst snd]. unfold mbind at 1, M_bind at 1.
  unfold visit at 2 4. cbn [fst snd].
  destruct (should_skip (path_join base_dir rel)) eqn:Hs.
  - unfold mret at 1, M_ret at 1. apply (IH (w, acc)).
  - unfold mbind at 1, M_bind at 1. rewrite rebrand_file_spec. cbn zeta.
    destruct (updated _) eqn:Hu.
    + unfold mbind at 1, M_bind at 1. rewrite relative_to_join.
      unfold mret at 1, M_ret at 1. rewrite drop_join.
      apply (IH (_, _)).
    + unfold mret at 1, M_ret at 1. apply (IH (_, _)).
Qed.

Lemma walk_under_base (listing : list str) : Forall under_base (walk listing).
Proof.
  unfold walk. apply Forall_concat, Forall_forall. intros l (ext & <- & _)%list_elem_of_In%in_map_iff.
  apply Forall_forall. intros p (rel & <- & _)%list_elem_of_In%in_map_iff. by exists rel.
Qed.

Lemma scan_from (exts : list str) (acc : list str) (w : world) :
  for_each exts
    (fun (ext : str) (files_updated : list str) =>
       paths ← rglob base_dir ext;
       for_each paths
         (fun (file_path : str) (files_updated : list str) =>
            if should_skip file_path then mret files_updated
            else
              changed ← rebrand_file file_path;
              if (changed : bool) then
                rel ← relative_to file_path base_dir;
                mret (files_updated ++ [rel])
              else mret files_updated) files_updated) acc w
  = let paths :=
      concat (map (λ ext, map (path_join base_dir)
                            (filter (λ rel, has_extension ext rel = true) (w_listing w)))
                  exts) in
    (Ret (foldl visit (w, acc) paths).2, (foldl visit (w, acc) paths).1).
Proof.
  cbn zeta. remember (w_listing w) as L eqn:HL. revert w HL acc.
  induction exts as [|ext exts IH]; intros w HL acc; [done|].
  cbn [for_each map concat]. unfold mbind at 1, M_bind at 1.
  unfold mbind at 1, M_bind at 1. unfold rglob at 1. rewrite <- HL.
  unfold has_extension in *.
  match goal with
  | |- context [for_each ?l _ acc w] =>
      pose proof (for_each_visit l (w, acc)) as Hin
  end.
  cbn [fst snd] in Hin. rewrite Hin.
  2:{ apply Forall_forall. intros p (rel & <- & _)%list_elem_of_In%in_map_iff. by exists rel. }
  rewrite foldl_app.
  match goal with |- context [foldl visit (w, acc) ?l] => set (st1 := foldl visit (w, acc) l) end.
  assert (L = w_listing st1.1) as H1 by (unfold st1; by rewrite visit_listing).
  destruct st1 as [w1 acc1]. by apply IH.
Qed.

Lemma scan_spec (w : world) :
  scan w = (Ret (foldl visit (w, []) (walk (w_listing w))).2,
            (foldl visit (w, []) (walk (w_listing w))).1).
Proof. apply scan_from. Qed.

Lemma for_each_print (lines : list str) (pre : str) (w : world) :
  for_each lines (fun (f : str) (_ : unit) => print (pre ++ f)) tt w
  = (Ret tt, World (w_listing w) (w_files w)
               (w_stdout w ++ map (λ f, pre ++ f) lines) (w_trace w)).
Proof.
  revert w. induction lines as [|l lines IH]; intros w.
  - cbn. rewrite app_nil_r. by destruct w.
  - cbn [for_each map]. unfold mbind at 1, M_bind at 1, print at 1.
    rewrite IH. cbn. by rewrite <- app_assoc.
Qed.

Lemma report_spec (files_updated : list str) (w : world) :
  report files_updated w =
    (Ret tt, World (w_listing w) (w_files w)
               (w_stdout w ++ report_lines files_updated) (w_trace w)).
Proof.
  unfold report, report_lines. unfold mbind, M_bind. unfold print at 1 2. cbn [fst snd].
  destruct (bool_decide (files_updated = [])).
  - cbn. by rewrite <- app_assoc.
  - unfold print at 1. rewrite for_each_print. unfold bullet.
    destruct (50 <? length files_updated)%nat; unfold print, mret, M_ret; cbn;
      rewrite <- !app_assoc; cbn; rewrite ?app_nil_r, <- ?app_assoc; reflexivity.
Qed.

Lemma main_spec (w : world) :
  main w =
    let st := foldl visit (w, []) (walk (w_listing w)) in
    (Ret tt, World (w_listing st.1) (w_files st.1)
               (w_stdout st.1 ++ report_lines st.2) (w_trace st.1)).
Proof. unfold main. unfold mbind, M_bind. by rewrite scan_spec, report_spec. Qed.
End Scan.

(** The verdict on a file after it has been processed once. *)
Section Verdicts.
Lemma Forall_by_forallb (Q : Z → Prop) (test : Z → bool) (l : str) :
  (∀ c, test c = true → Q c) → forallb test l = true → Forall Q l.
Proof.
  intros H Hl. apply Forall_forall. intros c Hc%list_elem_of_In.
  rewrite forallb_forall in Hl. auto.
Qed.

Lemma transform_Forall (Q : Z → Prop) (s : str) :
  Forall Q brand_new → Forall Q slug_new → Forall Q domain_new →
  Forall Q s → Forall Q (transform s).
Proof.
  intros H1 H2 H3 Hs. rewrite transform_unfold.
  repeat (apply sub_all_Forall; [done|done|]). done.
Qed.

Lemma transform_scalar (s : str) : Forall scalar s → Forall scalar (transform s).
Proof.
  apply transform_Forall;
    by apply (Forall_by_forallb _ is_scalar); [|vm_compute].
Qed.

Lemma transform_no_cr (s : str) : Forall not_cr s → Forall not_cr (transform s).
Proof.
  apply transform_Forall;
    apply (Forall_by_forallb _ (λ c, negb (c =? 13))); try (by vm_compute);
    unfold not_cr; intros; lia.
Qed.

(** Writing back what was read and transformed never fails to encode,
    and reading the written bytes returns the transformed text. *)
Lemma write_read_text (bs : list Z) :
  ∃ out, utf8_encode (transform (read_text bs)) = Some out
         ∧ read_text out = transform (read_text bs).
Proof.
  destruct (utf8_encode_total (transform (read_text bs))) as [out Hout].
  { apply transform_scalar, read_text_scalar. }
  exists out. split; [done|]. apply read_text_encode; [|done].
  apply transform_no_cr, read_text_no_cr.
Qed.

Lemma verdict_encodable (o : option file) : verdict_of o ≠ Unencodable.
Proof.
  unfold verdict_of. destruct o as [f|]; [|done].
  destruct (f_read_err f); [done|]. destruct (str_eqb _ _); [done|].
  destruct (f_write_err f); [done|].
  destruct (write_read_text (f_bytes f)) as (out & -> & _). done.
Qed.

Lemma str_eqb_true (a b : str) : str_eqb a b = true ↔ a = b.
Proof. unfold str_eqb. apply bool_decide_eq_true. Qed.

Lemma str_eqb_false (a b : str) : str_eqb a b = false ↔ a ≠ b.
Proof. unfold str_eqb. apply bool_decide_eq_false. Qed.

Lemma verdict_rewritten (o : option file) (bs : list Z) :
  verdict_of o = Rewritten bs ↔
  ∃ f, o = Some f ∧ f_read_err f = None ∧ f_write_err f = None
       ∧ transform (read_text (f_bytes f)) ≠ read_text (f_bytes f)
       ∧ utf8_encode (transform (read_text (f_bytes f))) = Some bs.
Proof.
  unfold verdict_of. split.
  - destruct o as [f|]; [|done]. destruct (f_read_err f) eqn:Hr; [done|].
    destruct (str_eqb _ _) eqn:He; [done|]. destruct (f_write_err f) eqn:Hw; [done|].
    destruct (utf8_encode _) eqn:Hu; [|done]. intros [= <-].
    exists f. by rewrite str_eqb_false in He.
  - intros (f & -> & -> & -> & Hne%str_eqb_false & ->). by rewrite Hne.
Qed.

Lemma verdict_untouched (f : file) :
  f_read_err f = None → transform (read_text (f_bytes f)) = read_text (f_bytes f) →
  verdict_of (Some f) = Untouched.
Proof. intros Hr He%str_eqb_true. unfold verdict_of. by rewrite Hr, He. Qed.

Lemma verdict_next (o : option file) :
  verdict_of (file_next o) =
    match verdict_of o with
    | Rewritten _ | Unencodable => Untouched
    | v => v
    end.
Proof.
  unfold file_next. destruct (verdict_of o) as [| | | | |bs] eqn:Hv; try done.
  apply verdict_rewritten in Hv as (f & -> & Hr & Hw & Hne & Hu).
  destruct (write_read_text (f_bytes f)) as (out & Hout & Hread).
  simplify_eq. apply verdict_untouched; [done|]. cbn [f_bytes].
  by rewrite Hread, transform_idem.
Qed.

Lemma file_next_idem (o : option file) : file_next (file_next o) = file_next o.
Proof.
  unfold file_next at 1. rewrite verdict_next.
  by destruct (verdict_of o).
Qed.

Lemma updated_next (o : option file) : updated (verdict_of (file_next o)) = false.
Proof. rewrite verdict_next. by destruct (verdict_of o). Qed.


Lemma opens_next (path q : str) (o : option file) :
  EvWrite q ∈ opens_of path (verdict_of (file_next o)) →
  EvWrite q ∈ opens_of path (verdict_of o).
Proof.
  rewrite verdict_next.
  destruct (verdict_of o); cbn; try done; by intros ?%list_elem_of_singleton.
Qed.

Lemma files_after_lookup (path q : str) (m : gmap str file) :
  files_after path (verdict_of (m !! path)) m !! q =
    if decide (q = path) then file_next (m !! path) else m !! q.
Proof.
  unfold files_after, file_next.
  destruct (decide (q = path)) as [->|Hne];
    destruct (verdict_of (m !! path)); by rewrite ?lookup_insert_eq, ?lookup_insert_ne.
Qed.
End Verdicts.

(** Invariants of the fold: files and [files_updated]. *)
Section Invariants.
Variable w0 : world.

Lemma hit_snoc (visited : list str) (p q : str) :
  hit (visited ++ [p]) q ↔ hit visited q ∨ (q = p ∧ should_skip p = false).
Proof.
  unfold hit. rewrite elem_of_app, list_elem_of_singleton. split.
  - intros [[H| ->] Hs]; auto.
  - intros [[H Hs]|[-> Hs]]; auto.
Qed.

Lemma hit_snoc_skipped (visited : list str) (p q : str) :
  should_skip p = true → hit (visited ++ [p]) q ↔ hit visited q.
Proof. rewrite hit_snoc. intros Hs. split; [intros [H|[_ H]]; [done|congruence]|auto]. Qed.

Lemma visit_skip (st : world * list str) (p : str) :
  should_skip p = true → visit st p = st.
Proof. unfold visit. by intros ->. Qed.

Lemma visit_process (st : world * list str) (p : str) :
  should_skip p = false →
  visit st p =
    let v := verdict_of (w_files st.1 !! p) in
    (World (w_listing st.1) (files_after p v (w_files st.1))
       (w_stdout st.1 ++ errors_of p v) (w_trace st.1 ++ opens_of p v),
     if updated v then st.2 ++ [drop (length base_dir + 1) p] else st.2).
Proof. unfold visit. by intros ->. Qed.

(** Every file that has been visited holds what one run of
    [rebrand_file] makes of its initial state; every other file is as
    it was. *)
Lemma visit_files (visited : list str) (q : str) :
  let st := foldl visit (w0, []) visited in
  (hit visited q → w_files st.1 !! q = file_next (w_files w0 !! q))
  ∧ (¬ hit visited q → w_files st.1 !! q = w_files w0 !! q).
Proof.
  induction visited as [|p visited IH] using rev_ind; cbn zeta.
  - split; [by intros [?%elem_of_nil _]|done].
  - rewrite foldl_app. cbn [foldl]. cbn zeta in IH. destruct IH as [IH1 IH2].
    destruct (should_skip p) eqn:Hs.
    + rewrite visit_skip by done. by rewrite hit_snoc_skipped.
    + rewrite visit_process by done. cbn zeta. cbn [fst w_files].
      rewrite files_after_lookup. rewrite hit_snoc.
      destruct (decide (q = p)) as [->|Hne].
      * split; [|intros []; by right]. intros _.
        destruct (decide (p ∈ visited)) as [Hin|Hin].
        -- rewrite IH1 by done. apply file_next_idem.
        -- rewrite IH2; [done|]. by intros [? _].
      * split.
        -- intros [H|[? _]]; [auto|done].
        -- intros H. apply IH2. intros ?. apply H. by left.
Qed.

Lemma visit_current (visited : list str) (q : str) :
  let st := foldl visit (w0, []) visited in
  w_files st.1 !! q = w_files w0 !! q
  ∨ (hit visited q ∧ w_files st.1 !! q = file_next (w_files w0 !! q)).
Proof.
  cbn zeta. destruct (visit_files visited q) as [H1 H2].
  destruct (decide (q ∈ visited)) as [Hin|Hin];
    [destruct (should_skip q) eqn:Hs|].
  - left. apply H2. intros [_ ?]. congruence.
  - right. split; [done|]. by apply H1.
  - left. apply H2. by intros [? _].
Qed.

Lemma visit_updated (visited : list str) :
  Forall under_base visited →
  let st := foldl visit (w0, []) visited in
  NoDup st.2
  ∧ ∀ rel, rel ∈ st.2 ↔
           hit visited (path_join base_dir rel)
           ∧ updated (verdict_of (w_files w0 !! path_join base_dir rel)) = true.
Proof.
  induction visited as [|p visited IH] using rev_ind; intros Hb; cbn zeta.
  - split; [constructor|]. intros rel. split; [by intros ?%elem_of_nil|].
    by intros [[?%elem_of_nil _] _].
  - apply Forall_app in Hb as [Hb [[r ->] _]%Forall_cons].
    rewrite foldl_app. cbn [foldl]. destruct (IH Hb) as [IHn IHm]. clear IH.
    destruct (should_skip (path_join base_dir r)) eqn:Hs.
    { rewrite visit_skip by done. split; [done|]. intros rel.
      by rewrite hit_snoc_skipped. }
    rewrite visit_process by done. cbn zeta. cbn [fst snd]. rewrite drop_join.
    pose proof (visit_current visited (path_join base_dir r)) as Hcur.
    cbn zeta in Hcur.
    destruct (updated (verdict_of (w_files (foldl visit (w0, []) visited).1
                                     !! path_join base_dir r))) eqn:Hu.
    + destruct Hcur as [Hcur|[_ Hcur]]; rewrite Hcur in Hu;
        [|by rewrite updated_next in Hu].
      assert (r ∉ (foldl visit (w0, []) visited).2) as Hnew.
      { intros [Hh _]%IHm. destruct (visit_files visited (path_join base_dir r)) as [H1 _].
        specialize (H1 Hh). cbn zeta in H1. rewrite Hcur in H1.
        rewrite H1, updated_next in Hu. done. }
      split.
      * apply NoDup_app. split_and!; [done| |apply NoDup_singleton].
        intros x Hx ->%list_elem_of_singleton. done.
      * intros rel. rewrite elem_of_app, list_elem_of_singleton, IHm, hit_snoc. split.
        -- intros [[H1 H2]| ->]; [by auto|]. split; [by right|done].
        -- intros [[H|[Heq _]] H2]; [by left|]. right.
           unfold path_join in Heq. by apply app_inv_head in Heq as [= ->].
    + split; [done|]. intros rel. rewrite IHm, hit_snoc. split.
      * intros [H1 H2]. by auto.
      * intros [[H|[Heq _]] H2]; [done|].
        unfold path_join in Heq. apply app_inv_head in Heq as [= ->].
        destruct Hcur as [Hcur|[Hh Hcur]]; [|done].
        rewrite Hcur in Hu. congruence.
Qed.
End Invariants.

(** Invariants of the fold: the trace and standard output. *)
Section Outputs.
Variable w0 : world.

Lemma event_path_opens (p : str) (v : verdict) (e : event) :
  e ∈ opens_of p v → event_path e = p.
Proof.
  destruct v; cbn; intros H;
    repeat (apply elem_of_cons in H as [->|H]; [done|]); by apply elem_of_nil in H.
Qed.

Lemma read_in_opens (p : str) (v : verdict) : EvRead p ∈ opens_of p v.
Proof. destruct v; cbn; by left. Qed.

Lemma visit_trace (visited : list str) :
  let st := foldl visit (w0, []) visited in
  ∃ T, w_trace st.1 = w_trace w0 ++ T
       ∧ (∀ e, e ∈ T → hit visited (event_path e))
       ∧ (∀ q, hit visited q → EvRead q ∈ T)
       ∧ (∀ q, EvWrite q ∈ T → EvWrite q ∈ opens_of q (verdict_of (w_files w0 !! q))).
Proof.
  induction visited as [|p visited IH] using rev_ind; cbn zeta.
  - exists []. rewrite app_nil_r. split_and!; [done|..].
    + by intros e ?%elem_of_nil.
    + by intros q [?%elem_of_nil _].
    + by intros q ?%elem_of_nil.
  - rewrite foldl_app. cbn [foldl]. destruct IH as (T & HT & H1 & H2 & H3).
    destruct (should_skip p) eqn:Hs.
    { rewrite visit_skip by done. exists T. split_and!; [done|..].
      - intros e He. rewrite hit_snoc_skipped by done. auto.
      - intros q. rewrite hit_snoc_skipped by done. auto.
      - done. }
    rewrite visit_process by done. cbn zeta. cbn [fst w_trace].
    set (v := verdict_of (w_files (foldl visit (w0, []) visited).1 !! p)).
    exists (T ++ opens_of p v). split_and!.
    + by rewrite HT, app_assoc.
    + intros e [He|He]%elem_of_app; rewrite hit_snoc; [left; auto|right].
      by rewrite (event_path_opens p v e He).
    + intros q [Hq|[-> _]]%hit_snoc; apply elem_of_app; [left; auto|right].
      apply read_in_opens.
    + intros q [Hq|Hq]%elem_of_app; [auto|].
      pose proof (event_path_opens _ _ _ Hq) as Hp. cbn in Hp. subst q.
      destruct (visit_current w0 visited p) as [Hc|[_ Hc]]; unfold v in Hq;
        rewrite Hc in Hq; [done|]. by apply opens_next.
Qed.


Lemma elem_of_walk (listing : list str) (q : str) :
  q ∈ walk listing ↔
  ∃ rel, rel ∈ listing ∧ eligible rel = true ∧ q = path_join base_dir rel.
Proof.
  unfold walk, eligible. rewrite list_elem_of_In, in_concat. split.
  - intros (l & (ext & <- & Hext)%in_map_iff & Hq).
    apply in_map_iff in Hq as (rel & <- & Hrel).
    apply list_elem_of_In, list_elem_of_filter in Hrel as [Hrel Hin].
    exists rel. split_and!; [done| |done]. apply existsb_exists. by exists ext.
  - intros (rel & Hin & (ext & Hext & He)%existsb_exists & ->).
    eexists. split.
    + apply in_map_iff. by exists ext.
    + apply in_map_iff. exists rel. split; [done|].
      apply list_elem_of_In, list_elem_of_filter. by split.
Qed.
End Outputs.

(** The world after [main]. *)
Section Run.
Lemma clean_contains (s : str) :
  clean s ↔ contains brand_pat s = false ∧ contains slug_pat s = false
            ∧ contains domain_pat s = false.
Proof.
  unfold clean. by rewrite !not_occurs, not_occurs_ci.
Qed.


Lemma clean_fixed (s : str) : clean s → transform s = s.
Proof. intros (?&?&?)%clean_contains. by apply transform_fixed. Qed.


Lemma path_name_join (base rel : str) : path_name (path_join base rel) = path_name rel.
Proof. unfold path_name, path_join. by rewrite fold_left_app. Qed.

Lemma main_returns (w : world) : main w = (Ret tt, after_main w).
Proof. unfold after_main. by rewrite main_spec. Qed.

Lemma files_updated_of_eq (w : world) :
  files_updated_of w = (foldl visit (w, []) (walk (w_listing w))).2.
Proof. unfold files_updated_of. by rewrite scan_spec. Qed.

Lemma after_main_eq (w : world) :
  after_main w =
    let st := foldl visit (w, []) (walk (w_listing w)) in
    World (w_listing st.1) (w_files st.1)
      (w_stdout st.1 ++ report_lines st.2) (w_trace st.1).
Proof. unfold after_main. by rewrite main_spec. Qed.

Lemma after_main_listing (w : world) : w_listing (after_main w) = w_listing w.
Proof. rewrite after_main_eq. cbn zeta. cbn [w_listing]. apply visit_listing. Qed.

Lemma visited_iff (w : world) (path : str) :
  visited w path ↔
  ∃ rel, rel ∈ w_listing w ∧ eligible rel = true
         ∧ path = path_join base_dir rel ∧ should_skip path = false.
Proof.
  unfold visited, hit. rewrite elem_of_walk. split.
  - intros [(rel & ? & ? & ?) ?]. by exists rel.
  - intros (rel & ? & ? & ? & ?). split; [by exists rel|done].
Qed.

Lemma visited_intro (w : world) (rel : str) :
  rel ∈ w_listing w → eligible rel = true →
  should_skip (path_join base_dir rel) = false →
  visited w (path_join base_dir rel).
Proof. intros. apply visited_iff. by exists rel. Qed.

Lemma visited_extension (w : world) (path : str) :
  visited w path → ∃ ext, ext ∈ extensions ∧ ends_with ext (path_name path) = true.
Proof.
  intros (rel & _ & (ext & Hin & He)%existsb_exists & -> & _)%visited_iff.
  exists ext. split; [by apply list_elem_of_In|]. by rewrite path_name_join.
Qed.

Lemma after_main_files (w : world) (path : str) :
  w_files (after_main w) !! path =
    if decide (visited w path) then file_next (w_files w !! path)
    else w_files w !! path.
Proof.
  rewrite after_main_eq. cbn zeta. cbn [w_files].
  destruct (visit_files w (walk (w_listing w)) path) as [H1 H2].
  case_decide; auto.
Qed.

Lemma after_main_trace (w : world) :
  ∃ T, w_trace (after_main w) = w_trace w ++ T
       ∧ (∀ e, e ∈ T → visited w (event_path e))
       ∧ (∀ q, visited w q → EvRead q ∈ T)
       ∧ (∀ q, EvWrite q ∈ T → EvWrite q ∈ opens_of q (verdict_of (w_files w !! q))).
Proof. rewrite after_main_eq. cbn zeta. cbn [w_trace]. apply visit_trace. Qed.


Lemma files_updated_spec (w : world) :
  NoDup (files_updated_of w)
  ∧ ∀ rel, rel ∈ files_updated_of w ↔
           visited w (path_join base_dir rel)
           ∧ updated (verdict_of (w_files w !! path_join base_dir rel)) = true.
Proof. rewrite files_updated_of_eq. apply visit_updated, walk_under_base. Qed.
End Run.

(** The order of [sorted]. *)
Section Sorting.
Lemma str_leb_total (a b : str) : str_leb a b = true ∨ str_leb b a = true.
Proof.
  revert b. induction a as [|x a IH]; intros [|y b]; cbn; auto.
  destruct (IH b) as [H|H]; rewrite H; lia.
Qed.

Lemma str_leb_trans (a b c : str) :
  str_leb a b = true → str_leb b c = true → str_leb a c = true.
Proof.
  revert b c. induction a as [|x a IH]; intros [|y b] [|z c]; cbn; try done.
  intros H1 H2.
  destruct (str_leb a b) eqn:E1, (str_leb b c) eqn:E2; try lia.
  rewrite (IH b c E1 E2). lia.
Qed.

#[export] Instance str_le_total : Total str_le.
Proof. intros a b. apply str_leb_total. Qed.

#[export] Instance str_le_trans : Transitive str_le.
Proof. intros a b c. apply str_leb_trans. Qed.

Lemma str_leb_antisym (a b : str) :
  str_leb a b = true → str_leb b a = true → a = b.
Proof.
  revert b. induction a as [|x a IH]; intros [|y b]; cbn; try done.
  intros H1 H2. destruct (str_leb a b) eqn:E1, (str_leb b a) eqn:E2; try lia.
  rewrite (IH b E1 E2). f_equal. lia.
Qed.

#[export] Instance str_le_antisym : AntiSymm (=) str_le.
Proof. intros a b. apply str_leb_antisym. Qed.


End Sorting.

(** * The script with failing output and writes *)

(** What [Faulty.rebrand_file] does, by verdict: the exception of a
    refused error line leaves the function. *)
Section FaultyProgram.
Local Opaque cps read_text utf8_encode str_replace re_sub_ignorecase.
Variable env : faults.

Lemma faulty_rebrand_file_spec (path : str) (w : world) :
  Faulty.rebrand_file env path w =
    let v := fverdict_of env path (w_files w !! path) in
    match ferrors_of path v with
    | [] => (Ret (fupdated v), tried path v w)
    | line :: _ =>
        match print_err env line with
        | Some e => (Raise e, tried path v w)
        | None =>
            (Ret false,
             World (w_listing w) (ffiles_after path v (w_files w))
                   (w_stdout w ++ [line]) (w_trace w ++ fopens_of path v))
        end
    end.
Proof.
  unfold Faulty.rebrand_file, try_except, Faulty.rebrand_body, open_read, Faulty.open_write.
  unfold mbind, M_bind, mret, M_ret, raise, log_event, get_file, put_file, Faulty.print.
  unfold tried, fverdict_of, verdict_of, transform, error_line. cbn.
  destruct (w_files w !! path) as [f|] eqn:Hf; cbn.
  2:{ by destruct (print_err env _). }
  destruct (f_read_err f) as [m|] eqn:Hr; cbn.
  { by destruct (print_err env _). }
  destruct (str_eqb _ _) eqn:He; cbn; [done|].
  rewrite Hf. cbn. destruct (f_write_err f) as [m|]; cbn.
  { rewrite <- ?app_assoc. by destruct (print_err env _). }
  destruct (utf8_encode _); cbn.
  - destruct (flush_err env path) as [[m n]|]; cbn; rewrite Hr, <- ?app_assoc; [|done].
    by destruct (print_err env _).
  - rewrite Hr, <- ?app_assoc. by destruct (print_err env _).
Qed.
End FaultyProgram.

(** When standard output accepts every line, the loops of
    [Faulty.main] fold [fvisit] over [walk]. *)
Section FaultyScan.
Local Opaque cps read_text utf8_encode str_replace re_sub_ignorecase base_dir.
Variable env : faults.
Hypothesis accepted : stdout_accepts env.

Lemma ferrors_shape (path : str) (v : fverdict) :
  (ferrors_of path v = [] ∧ tried path v = tried path v)
  ∨ ∃ line, ferrors_of path v = [line] ∧ fupdated v = false.
Proof.
  destruct v as [[]|]; cbn; first [by left|right; by eexists].
Qed.

Lemma faulty_rebrand_file_accepted (path : str) (w : world) :
  Faulty.rebrand_file env path w =
    let v := fverdict_of env path (w_files w !! path) in
    (Ret (fupdated v),
     World (w_listing w) (ffiles_after path v (w_files w))
           (w_stdout w ++ ferrors_of path v) (w_trace w ++ fopens_of path v)).
Proof.
  rewrite faulty_rebrand_file_spec. cbn zeta.
  destruct (ferrors_shape path (fverdict_of env path (w_files w !! path)))
    as [[-> _]|(line & -> & ->)].
  - unfold tried. by rewrite app_nil_r.
  - by rewrite accepted.
Qed.

Lemma fvisit_listing (st : world * list str) (paths : list str) :
  w_listing (foldl (fvisit env) st paths).1 = w_listing st.1.
Proof.
  revert st. induction paths as [|p paths IH]; intros st; [done|].
  cbn [foldl]. rewrite IH. unfold fvisit. by destruct (should_skip p).
Qed.

Lemma for_each_fvisit (paths : list str) (st : world * list str) :
  Forall under_base paths →
  for_each paths
    (fun (file_path : str) (files_updated : list str) =>
       if should_skip file_path then mret files_updated
       else
         changed ← Faulty.rebrand_file env file_path;
         if (changed : bool) then
           rel ← relative_to file_path base_dir;
           mret (files_updated ++ [rel])
         else mret files_updated) st.2 st.1
  = (Ret (foldl (fvisit env) st paths).2, (foldl (fvisit env) st paths).1).
Proof.
  intros H. revert st. induction H as [|p paths [rel ->] _ IH]; intros [w acc]; [done|].
  cbn [for_each foldl fst snd]. unfold mbind at 1, M_bind at 1.
  unfold fvisit at 2 4. cbn [fst snd].
  destruct (should_skip (path_join base_dir rel)) eqn:Hs.
  - unfold mret at 1, M_ret at 1. apply (IH (w, acc)).
  - unfold mbind at 1, M_bind at 1. rewrite faulty_rebrand_file_accepted. cbn zeta.
    destruct (fupdated _) eqn:Hu.
    + unfold mbind at 1, M_bind at 1. rewrite relative_to_join.
      unfold mret at 1, M_ret at 1. rewrite drop_join.
      apply (IH (_, _)).
    + unfold mret at 1, M_ret at 1. apply (IH (_, _)).
Qed.

Lemma faulty_scan_from (exts : list str) (acc : list str) (w : world) :
  for_each exts
    (fun (ext : str) (files_updated : list str) =>
       paths ← rglob base_dir ext;
       for_each paths
         (fun (file_path : str) (files_updated : list str) =>
            if should_skip file_path then mret files_updated
            else
              changed ← Faulty.rebrand_file env file_path;
              if (changed : bool) then
                rel ← relative_to file_path base_dir;
                mret (files_updated ++ [rel])
              else mret files_updated) files_updated) acc w
  = let paths :=
      concat (map (λ ext, map (path_join base_dir)
                            (filter (λ rel, has_extension ext rel = true) (w_listing w)))
                  exts) in
    (Ret (foldl (fvisit env) (w, acc) paths).2, (foldl (fvisit env) (w, acc) paths).1).
Proof.
  cbn zeta. remember (w_listing w) as L eqn:HL. revert w HL acc.
  induction exts as [|ext exts IH]; intros w HL acc; [done|].
  cbn [for_each map concat]. unfold mbind at 1, M_bind at 1.
  unfold mbind at 1, M_bind at 1. unfold rglob at 1. rewrite <- HL.
  unfold has_extension in *.
  match goal with
  | |- context [for_each ?l _ acc w] =>
      pose proof (for_each_fvisit l (w, acc)) as Hin
  end.
  cbn [fst snd] in Hin. rewrite Hin.
  2:{ apply Forall_forall. intros p (rel & <- & _)%list_elem_of_In%in_map_iff. by exists rel. }
  rewrite foldl_app.
  match goal with
  | |- context [foldl (fvisit env) (w, acc) ?l] =>
      set (st1 := foldl (fvisit env) (w, acc) l)
  end.
  assert (L = w_listing st1.1) as H1 by (unfold st1; by rewrite fvisit_listing).
  destruct st1 as [w1 acc1]. by apply IH.
Qed.

Lemma faulty_scan_spec (w : world) :
  Faulty.scan env w
  = (Ret (foldl (fvisit env) (w, []) (walk (w_listing w))).2,
     (foldl (fvisit env) (w, []) (walk (w_listing w))).1).
Proof. apply faulty_scan_from. Qed.

Lemma faulty_print_accepted (line : str) : Faulty.print env line = print line.
Proof. unfold Faulty.print, print. by rewrite (accepted line). Qed.

Lemma faulty_for_each_print (lines : list str) (pre : str) (w : world) :
  for_each lines (fun (f : str) (_ : unit) => Faulty.print env (pre ++ f)) tt w
  = for_each lines (fun (f : str) (_ : unit) => print (pre ++ f)) tt w.
Proof.
  revert w. induction lines as [|l lines IH]; intros w; [done|].
  cbn [for_each]. unfold mbind at 1 2, M_bind at 1 2.
  rewrite faulty_print_accepted. destruct (print (pre ++ l) w) as [[[]|e] w']; [|done].
  apply IH.
Qed.

Lemma faulty_report_accepted (files_updated : list str) (w : world) :
  Faulty.report env files_updated w = report files_updated w.
Proof.
  unfold Faulty.report, report. rewrite !faulty_print_accepted.
  unfold mbind, M_bind.
  destruct (print _ w) as [[[]|e] w1]; [|done].
  destruct (print _ w1) as [[[]|e] w2]; [|done].
  destruct (bool_decide (files_updated = [])); [done|].
  destruct (print _ w2) as [[[]|e] w3]; [|done].
  by rewrite faulty_for_each_print.
Qed.

Lemma faulty_main_spec (w : world) :
  Faulty.main env w =
    let st := foldl (fvisit env) (w, []) (walk (w_listing w)) in
    (Ret tt, World (w_listing st.1) (w_files st.1)
               (w_stdout st.1 ++ report_lines st.2) (w_trace st.1)).
Proof.
  unfold Faulty.main. unfold mbind, M_bind.
  by rewrite faulty_scan_spec, faulty_report_accepted, report_spec.
Qed.

Lemma faulty_files_updated_of_eq (w : world) :
  faulty_files_updated_of env w
  = (foldl (fvisit env) (w, []) (walk (w_listing w))).2.
Proof. unfold faulty_files_updated_of. by rewrite faulty_scan_spec. Qed.

Lemma faulty_after_main_eq (w : world) :
  faulty_after_main env w =
    let st := foldl (fvisit env) (w, []) (walk (w_listing w)) in
    World (w_listing st.1) (w_files st.1)
      (w_stdout st.1 ++ report_lines st.2) (w_trace st.1).
Proof. unfold faulty_after_main. by rewrite faulty_main_spec. Qed.
End FaultyScan.

(** Invariants of the fold of [fvisit]. *)
Section FaultyInvariants.
Local Opaque cps read_text utf8_encode str_replace re_sub_ignorecase base_dir.
Variable env : faults.

Lemma hit_cons (p q : str) (paths : list str) :
  hit (p :: paths) q ↔ (q = p ∧ should_skip p = false) ∨ hit paths q.
Proof.
  unfold hit. rewrite elem_of_cons. split.
  - intros [[->|H] Hs]; auto.
  - intros [[-> Hs]|[H Hs]]; auto.
Qed.

Lemma fvisit_skip (st : world * list str) (p : str) :
  should_skip p = true → fvisit env st p = st.
Proof. unfold fvisit. by intros ->. Qed.

Lemma fvisit_process (st : world * list str) (p : str) :
  should_skip p = false →
  fvisit env st p =
    let v := fverdict_of env p (w_files st.1 !! p) in
    (World (w_listing st.1) (ffiles_after p v (w_files st.1))
       (w_stdout st.1 ++ ferrors_of p v) (w_trace st.1 ++ fopens_of p v),
     if fupdated v then st.2 ++ [drop (length base_dir + 1) p] else st.2).
Proof. unfold fvisit. by intros ->. Qed.

Lemma ffiles_after_other (p q : str) (v : fverdict) (m : gmap str file) :
  q ≠ p → ffiles_after p v m !! q = m !! q.
Proof. intros Hne. destruct v as [[]|]; cbn; by rewrite ?lookup_insert_ne. Qed.

Lemma fvisit_other (st : world * list str) (p q : str) :
  q ≠ p → w_files (fvisit env st p).1 !! q = w_files st.1 !! q.
Proof.
  intros Hne. unfold fvisit. destruct (should_skip p); [done|].
  cbn [fst w_files]. by apply ffiles_after_other.
Qed.

(** A file that is not visited is as it was. *)
Lemma fvisit_frame (paths : list str) (st : world * list str) (q : str) :
  ¬ hit paths q → w_files (foldl (fvisit env) st paths).1 !! q = w_files st.1 !! q.
Proof.
  revert st. induction paths as [|p paths IH]; intros st Hq; [done|].
  cbn [foldl]. rewrite IH by (intros H; apply Hq, hit_cons; by right).
  destruct (decide (q = p)) as [->|Hne]; [|by apply fvisit_other].
  destruct (should_skip p) eqn:Hs; [by rewrite fvisit_skip|].
  destruct Hq. apply hit_cons. by left.
Qed.

(** Standard output, the trace and [files_updated] only grow. *)
Lemma fvisit_grows (paths : list str) (st : world * list str) :
  let st' := foldl (fvisit env) st paths in
  (∃ E, w_stdout st'.1 = w_stdout st.1 ++ E)
  ∧ (∃ T, w_trace st'.1 = w_trace st.1 ++ T)
  ∧ (∃ U, st'.2 = st.2 ++ U).
Proof.
  cbn zeta. revert st. induction paths as [|p paths IH]; intros st.
  - split_and!; exists []; by rewrite app_nil_r.
  - cbn [foldl]. destruct (IH (fvisit env st p)) as ((E & ->) & (T & ->) & (U & ->)).
    unfold fvisit. destruct (should_skip p); [split_and!; by eexists|].
    cbn [fst snd w_stdout w_trace].
    split_and!.
    + eexists. by rewrite <- app_assoc.
    + eexists. by rewrite <- app_assoc.
    + destruct (fupdated _); eexists; [by rewrite <- app_assoc|done].
Qed.

Lemma fread_in_opens (p : str) (v : fverdict) : EvRead p ∈ fopens_of p v.
Proof. destruct v as [[]|]; cbn; by left. Qed.

(** Every path that is visited is opened for reading. *)
Lemma fvisit_reads (paths : list str) (st : world * list str) (q : str) :
  hit paths q → EvRead q ∈ w_trace (foldl (fvisit env) st paths).1.
Proof.
  revert st. induction paths as [|p paths IH]; intros st; [by intros [?%elem_of_nil _]|].
  intros [[-> Hs]|Hq]%hit_cons; [|by apply IH]. cbn [foldl].
  destruct (fvisit_grows paths (fvisit env st p)) as (_ & (T & ->) & _).
  rewrite fvisit_process by done. cbn zeta. cbn [fst w_trace].
  rewrite !elem_of_app. left. right. apply fread_in_opens.
Qed.

(** The error line of the first visit of a path is printed. *)
Lemma fvisit_error (paths : list str) (st : world * list str) (p line : str) :
  hit paths p →
  line ∈ ferrors_of p (fverdict_of env p (w_files st.1 !! p)) →
  line ∈ w_stdout (foldl (fvisit env) st paths).1.
Proof.
  revert st. induction paths as [|a paths IH]; intros st; [by intros [?%elem_of_nil _]|].
  intros Hp Hline. cbn [foldl].
  destruct (decide (a = p)) as [->|Hne].
  - destruct Hp as [_ Hs].
    destruct (fvisit_grows paths (fvisit env st p)) as ((E & ->) & _).
    rewrite fvisit_process by done. cbn zeta. cbn [fst w_stdout].
    rewrite !elem_of_app. by left; right.
  - apply hit_cons in Hp as [[? _]|Hp]; [done|].
    apply IH; [done|]. by rewrite fvisit_other.
Qed.

Lemma stuck_not_updated (p : str) (o : option file) :
  stuck env p o → fupdated (fverdict_of env p o) = false.
Proof.
  unfold fverdict_of. intros [H|H]; destruct (verdict_of o); try done.
  by destruct (flush_err env p) as [[]|].
Qed.

Lemma settled_plain (p : str) (o : option file) :
  settled env p o → fverdict_of env p o = Plain (verdict_of o).
Proof.
  unfold fverdict_of. intros [H|H]; destruct (verdict_of o); try done.
  by rewrite H.
Qed.

Lemma stuck_step (st : world * list str) (a p : str) :
  stuck env p (w_files st.1 !! p) → stuck env p (w_files (fvisit env st a).1 !! p).
Proof.
  intros H. destruct (decide (p = a)) as [->|Hne]; [|by rewrite fvisit_other].
  destruct H as [H|H]; [by left|]. right.
  unfold fvisit. destruct (should_skip a); [done|]. cbn [fst w_files].
  rewrite settled_plain by by right. cbn [ffiles_after].
  rewrite files_after_lookup, decide_True by done. apply updated_next.
Qed.

(** A path whose file is [stuck] does not enter [files_updated]. *)
Lemma fvisit_stuck (paths : list str) (st : world * list str) (rel : str) :
  Forall under_base paths →
  stuck env (path_join base_dir rel) (w_files st.1 !! path_join base_dir rel) →
  rel ∉ st.2 → rel ∉ (foldl (fvisit env) st paths).2.
Proof.
  intros Hb. revert st. induction Hb as [|a paths [r ->] _ IH]; intros st Hst Hrel; [done|].
  cbn [foldl]. apply IH; [by apply stuck_step|].
  unfold fvisit. destruct (should_skip _); [done|]. cbn [snd].
  destruct (fupdated _) eqn:Hu; [|done].
  rewrite drop_join, not_elem_of_app, not_elem_of_cons. split_and!; [done| |apply not_elem_of_nil].
  intros <-. by rewrite stuck_not_updated in Hu.
Qed.

Lemma settled_next (p : str) (o : option file) :
  settled env p o → settled env p (file_next o).
Proof. intros _. right. apply updated_next. Qed.

Lemma fvisit_at_settled (st : world * list str) (p : str) :
  should_skip p = false → settled env p (w_files st.1 !! p) →
  w_files (fvisit env st p).1 !! p = file_next (w_files st.1 !! p).
Proof.
  intros Hs H. rewrite fvisit_process by done. cbn zeta. cbn [fst w_files].
  rewrite settled_plain by done. cbn [ffiles_after].
  by rewrite files_after_lookup, decide_True.
Qed.

(** A file on which writing does not fail half-way holds, once
    visited, what one run of [rebrand_file] makes of it. *)
Lemma fvisit_settled (paths : list str) (st : world * list str) (q : str) :
  hit paths q → settled env q (w_files st.1 !! q) →
  w_files (foldl (fvisit env) st paths).1 !! q = file_next (w_files st.1 !! q).
Proof.
  revert st. induction paths as [|a paths IH]; intros st; [by intros [?%elem_of_nil _]|].
  intros Hq Hst. cbn [foldl].
  destruct (decide (a = q)) as [->|Hne].
  - destruct Hq as [_ Hs].
    destruct (decide (hit paths q)) as [Hq|Hq].
    + rewrite IH; [|done|]; rewrite fvisit_at_settled by done;
        [apply file_next_idem|by apply settled_next].
    + rewrite fvisit_frame by done. by apply fvisit_at_settled.
  - apply hit_cons in Hq as [[? _]|Hq]; [done|].
    rewrite IH; [|done|]; by rewrite fvisit_other.
Qed.
End FaultyInvariants.

(** The run of [Faulty.main]. *)
Section FaultyRun.
Local Opaque cps read_text utf8_encode str_replace re_sub_ignorecase base_dir.

Lemma no_faults_accepts : stdout_accepts no_faults.
Proof. by intros line. Qed.

Lemma fvisit_no_faults (st : world * list str) (p : str) :
  fvisit no_faults st p = visit st p.
Proof.
  unfold fvisit, visit. destruct (should_skip p); [done|].
  rewrite (settled_plain no_faults) by by left. done.
Qed.

(** Without faults the script of [Faulty] is the script of the model. *)
Lemma faulty_main_no_faults (w : world) : Faulty.main no_faults w = main w.
Proof.
  rewrite (faulty_main_spec no_faults no_faults_accepts), main_spec. cbn zeta.
  assert (∀ paths st, foldl (fvisit no_faults) st paths = foldl visit st paths) as ->; [|done].
  induction paths as [|p paths IH]; intros st; [done|].
  cbn [foldl]. by rewrite fvisit_no_faults, IH.
Qed.
End FaultyRun.

(** * The properties of the specification *)

(** Files that can be read and written. *)
Section Files.
Lemma verdict_ok (f : file) :
  f_read_err f = None → f_write_err f = None →
  (transform (read_text (f_bytes f)) = read_text (f_bytes f)
   ∧ verdict_of (Some f) = Untouched)
  ∨ (transform (read_text (f_bytes f)) ≠ read_text (f_bytes f)
     ∧ ∃ bs, utf8_encode (transform (read_text (f_bytes f))) = Some bs
             ∧ read_text bs = transform (read_text (f_bytes f))
             ∧ verdict_of (Some f) = Rewritten bs).
Proof.
  intros Hr Hw.
  destruct (decide (transform (read_text (f_bytes f)) = read_text (f_bytes f))) as [He|He].
  - left. split; [done|]. by apply verdict_untouched.
  - right. split; [done|].
    destruct (write_read_text (f_bytes f)) as (bs & Hbs & Hread).
    exists bs. split_and!; [done..|]. apply verdict_rewritten. by exists f.
Qed.

Lemma updated_iff (o : option file) :
  updated (verdict_of o) = true ↔
  ∃ f, o = Some f ∧ f_read_err f = None ∧ f_write_err f = None
       ∧ transform (read_text (f_bytes f)) ≠ read_text (f_bytes f).
Proof.
  split.
  - destruct (verdict_of o) as [| | | | |bs] eqn:Hv; try done. intros _.
    apply verdict_rewritten in Hv as (f & ? & ? & ? & ? & ?). by exists f.
  - intros (f & -> & Hr & Hw & Hne).
    destruct (verdict_ok f Hr Hw) as [[? _]|(_ & bs & _ & _ & ->)]; done.
Qed.

Lemma raises_verdict (path : str) (o : option file) (msg : str) :
  raises path o msg →
  errors_of path (verdict_of o) = [error_line path msg]
  ∧ updated (verdict_of o) = false ∧ file_next o = o.
Proof.
  unfold file_next.
  intros [[-> ->]|[(f & -> & Hr)|(f & -> & Hr & Hne%str_eqb_false & Hw)]];
    unfold verdict_of; rewrite ?Hr, ?Hne, ?Hw; done.
Qed.

Lemma unreadable_next (o : option file) :
  (∀ f, o = Some f → f_read_err f ≠ None ∨
                     transform (read_text (f_bytes f)) = read_text (f_bytes f)) →
  file_next o = o ∧ updated (verdict_of o) = false
  ∧ ∀ path, EvWrite path ∉ opens_of path (verdict_of o).
Proof.
  unfold file_next, verdict_of. destruct o as [f|].
  - intros H. destruct (H f eq_refl) as [Hr|He%str_eqb_true].
    + destruct (f_read_err f); [|done]. split_and!; [done..|].
      intros path. cbn. by rewrite list_elem_of_singleton.
    + destruct (f_read_err f); rewrite ?He; (split_and!; [done..|]);
        intros path; cbn; by rewrite list_elem_of_singleton.
  - intros _. split_and!; [done..|]. intros path. cbn. by rewrite list_elem_of_singleton.
Qed.
Lemma faulty_raises_verdict (env : faults) (path : str) (o : option file) (msg : str) :
  faulty_raises env path o msg →
  error_line path msg ∈ ferrors_of path (fverdict_of env path o)
  ∧ stuck env path o.
Proof.
  intros [H|(f & n & -> & Hr & Hw & Hne & Hfl)].
  - apply raises_verdict in H as (Herr & Hup & _).
    rewrite settled_plain by by right. cbn [ferrors_of]. rewrite Herr.
    split; [by left|by right].
  - destruct (verdict_ok f Hr Hw) as [[? _]|(_ & bs & _ & _ & Hv)]; [done|].
    unfold fverdict_of. rewrite Hv, Hfl. cbn [ferrors_of].
    split; [by left|]. left. by rewrite Hfl.
Qed.
End Files.

(** ** Examples *)

Example transform_slug :
  transform (cps "name: ghl-agency-ai-service") = cps "name: bottleneck-bots-service".
Proof. vm_compute. reflexivity. Qed.

Example transform_domain :
  transform (cps "Visit GHL.Agency.AI today") = cps "Visit bottleneckbots.com today".
Proof. vm_compute. reflexivity. Qed.

Example decode_drops_bad_byte :
  read_text (cps "ghl-agency" ++ [255] ++ cps "-ai") = cps "ghl-agency-ai".
Proof. vm_compute. reflexivity. Qed.

Example decode_encode_euro :
  utf8_encode [8364; 233; 128512] = Some [226; 130; 172; 195; 169; 240; 159; 152; 128]
  /\ utf8_decode_ignore [226; 130; 172; 195; 169; 240; 159; 152; 128] = [8364; 233; 128512].
Proof. vm_compute. split; reflexivity. Qed.

(** ** The example tree, run *)

Example demo_run_stdout :
  map show (w_stdout (after_main demo_world)) =
    ["Error processing /root/github-repos/ghl-agency-ai/bad.md: [Errno 13] Permission denied: '/root/github-repos/ghl-agency-ai/bad.md'";
     "Error processing /root/github-repos/ghl-agency-ai/gone.md: [Errno 2] No such file or directory: '/root/github-repos/ghl-agency-ai/gone.md'";
     "Error processing /root/github-repos/ghl-agency-ai/ro.txt: [Errno 13] Permission denied: '/root/github-repos/ghl-agency-ai/ro.txt'";
     String "010" "Rebranding complete!";
     "Updated 3 files";
     String "010" "Files updated:";
     "  - README.md"; "  - copy.md"; "  - raw.txt"]%string.
Proof. vm_compute. reflexivity. Qed.

Example demo_run_files :
  (λ f, show (f_bytes f)) <$> w_files (after_main demo_world) !! (path_join base_dir (cps "README.md"))
  = Some (String "#" (" Bottleneck Bots" ++ String "010" "see bottleneckbots.com"))%string
  ∧ f_bytes <$> w_files (after_main demo_world) !! (path_join base_dir (cps "raw.txt"))
    = Some (cps "bottleneck-bots" ++ [10])
  ∧ w_files (after_main demo_world) !! (path_join base_dir (cps "ro.txt"))
    = w_files demo_world !! (path_join base_dir (cps "ro.txt")).
Proof. vm_compute. repeat split. Qed.

(** A run that fails to write: [raw.txt] is left with the first six
    bytes of its new content and is not reported as updated. *)
Example disk_full_run :
  map show (w_stdout (faulty_after_main disk_full demo_world)) =
    ["Error processing /root/github-repos/ghl-agency-ai/bad.md: [Errno 13] Permission denied: '/root/github-repos/ghl-agency-ai/bad.md'";
     "Error processing /root/github-repos/ghl-agency-ai/gone.md: [Errno 2] No such file or directory: '/root/github-repos/ghl-agency-ai/gone.md'";
     "Error processing /root/github-repos/ghl-agency-ai/ro.txt: [Errno 13] Permission denied: '/root/github-repos/ghl-agency-ai/ro.txt'";
     "Error processing /root/github-repos/ghl-agency-ai/raw.txt: [Errno 28] No space left on device";
     String "010" "Rebranding complete!";
     "Updated 2 files";
     String "010" "Files updated:";
     "  - README.md"; "  - copy.md"]%string
  ∧ f_bytes <$> w_files (faulty_after_main disk_full demo_world)
                  !! (path_join base_dir (cps "raw.txt"))
    = Some (cps "bottle").
Proof. vm_compute. split; reflexivity. Qed.

(** A run whose error line is refused: the exception of [print] ends
    it after the first file, and [notes.md] is never opened. *)
Example surrogate_run :
  (Faulty.main strict_stdout surrogate_world).1
  = Raise (UnicodeEncodeError
             (cps "'utf-8' codec can't encode character '\udce9' in position 53: surrogates not allowed"))
  ∧ w_stdout (faulty_after_main strict_stdout surrogate_world) = []
  ∧ w_trace (faulty_after_main strict_stdout surrogate_world)
    = [EvRead (path_join base_dir surrogate_name)]
  ∧ w_files (faulty_after_main strict_stdout surrogate_world)
      !! (path_join base_dir (cps "notes.md"))
    = Some (File (cps "ghl-agency-ai") None None).
Proof. vm_compute. repeat split. Qed.

(** The name of a missing file is quoted as [repr] does. *)
Example missing_file_message :
  exn_str (no_such_file (cps "/tmp/it's.md"))
  = cps "[Errno 2] No such file or directory: " ++ [34] ++ cps "/tmp/it's.md" ++ [34]
  ∧ exn_str (no_such_file (cps "/tmp/a\b" ++ [10; 233; 56553] ++ cps ".md"))
    = cps "[Errno 2] No such file or directory: '/tmp/a\\b\n" ++ [233] ++ cps "\udce9.md'".
Proof. vm_compute. split; reflexivity. Qed.

Example dec_1234 : dec 1234 = cps "1234".
Proof. vm_compute. reflexivity. Qed.

Section Claims.



(** C2: the content transformation is idempotent, and so is the run:
    a second run leaves every file as the first run left it and
    reports no file as updated. *)
Theorem second_run_changes_nothing :
  (∀ s : str, transform (transform s) = transform s)
  ∧ (∀ w : world,
       w_files (after_main (after_main w)) = w_files (after_main w)
       ∧ files_updated_of (after_main w) = []).
Proof.
  split; [apply transform_idem|]. intros w.
  assert (∀ q, visited (after_main w) q ↔ visited w q) as Hv.
  { intros q. unfold visited. by rewrite after_main_listing. }
  split.
  - apply map_eq. intros q. rewrite (after_main_files (after_main w)).
    destruct (decide (visited (after_main w) q)) as [H|H]; [|done].
    apply Hv in H. rewrite after_main_files, decide_True by done.
    apply file_next_idem.
  - apply elem_of_nil_inv. intros rel [H Hu]%files_updated_spec.
    apply Hv in H. rewrite after_main_files, decide_True in Hu by done.
    by rewrite updated_next in Hu.
Qed.

(** C3, as the specification states it, fails: [rebrand_file] prints
    the error line in its [except] block, outside the [try], and
    [print] raises when standard output does not take the line.  In
    [surrogate_world] the first file cannot be opened and its name
    holds a lone surrogate, which a standard output in UTF-8 refuses:
    the exception of [print] leaves [rebrand_file] and [main], the
    error is not logged and the scan does not go on. *)
Lemma unprintable_error_aborts_run :
  ¬ (∀ (env : faults) (w : world) (rel msg : str),
       rel ∈ w_listing w → eligible rel = true →
       should_skip (path_join base_dir rel) = false →
       faulty_raises env (path_join base_dir rel)
         (w_files w !! (path_join base_dir rel)) msg →
       ∃ w', Faulty.main env w = (Ret tt, w')
             ∧ error_line (path_join base_dir rel) msg ∈ w_stdout w'
             ∧ (rel ∉ faulty_files_updated_of env w)
             ∧ (∀ rel', rel' ∈ w_listing w → eligible rel' = true →
                        should_skip (path_join base_dir rel') = false →
                        EvRead (path_join base_dir rel') ∈ w_trace w')).
Proof.
  intros H.
  destruct (H strict_stdout surrogate_world surrogate_name
              (cps "[Errno 13] Permission denied: "
               ++ repr (path_join base_dir surrogate_name)))
    as (w' & Hmain & _).
  - apply list_elem_of_In. vm_compute. tauto.
  - by vm_compute.
  - by vm_compute.
  - left. right. left. eexists. split; [by vm_compute|done].
  - vm_compute in Hmain. discriminate Hmain.
Qed.

(** C3 (amended): when standard output accepts every line, an error
    raised while one file is read or written (the file is missing,
    cannot be opened, or writing it fails after it was opened) is
    caught there: the run still returns normally and prints its
    report, the line "Error processing <path>: <message>" is on
    standard output, the file is not among the updated files (and is
    left as it was unless writing had begun), every eligible file of
    the listing is still opened, and every one on which writing does
    not fail is processed as if it were alone. *)
Theorem file_errors_are_contained (env : faults) (w : world) (rel msg : str) :
  stdout_accepts env →
  rel ∈ w_listing w → eligible rel = true →
  should_skip (path_join base_dir rel) = false →
  faulty_raises env (path_join base_dir rel) (w_files w !! (path_join base_dir rel)) msg →
  Faulty.main env w = (Ret tt, faulty_after_main env w)
  ∧ error_line (path_join base_dir rel) msg ∈ w_stdout (faulty_after_main env w)
  ∧ (rel ∉ faulty_files_updated_of env w)
  ∧ (raises (path_join base_dir rel) (w_files w !! (path_join base_dir rel)) msg →
     w_files (faulty_after_main env w) !! (path_join base_dir rel)
     = w_files w !! (path_join base_dir rel))
  ∧ (∀ rel', rel' ∈ w_listing w → eligible rel' = true →
             should_skip (path_join base_dir rel') = false →
             EvRead (path_join base_dir rel') ∈ w_trace (faulty_after_main env w)
             ∧ (flush_err env (path_join base_dir rel') = None →
                w_files (faulty_after_main env w) !! (path_join base_dir rel')
                = file_next (w_files w !! (path_join base_dir rel'))))
  ∧ (∃ E, w_stdout (faulty_after_main env w)
          = w_stdout w ++ E ++ report_lines (faulty_files_updated_of env w)).
Proof.
  intros Hacc Hin He Hs Hraise.
  pose proof (visited_intro w rel Hin He Hs) as Hv. unfold visited in Hv.
  pose proof (faulty_raises_verdict _ _ _ _ Hraise) as [Hline Hstuck].
  rewrite (faulty_after_main_eq env Hacc), (faulty_files_updated_of_eq env Hacc).
  cbn zeta. cbn [w_stdout w_files w_trace].
  split_and!.
  - by rewrite (faulty_main_spec env Hacc).
  - rewrite elem_of_app. left.
    by apply (fvisit_error env _ (w, []) (path_join base_dir rel)).
  - apply fvisit_stuck; [apply walk_under_base|done|apply not_elem_of_nil].
  - intros (_ & Hup & Hnext)%raises_verdict.
    rewrite fvisit_settled; [done..|]. by right.
  - intros rel' Hin' He' Hs'.
    pose proof (visited_intro w rel' Hin' He' Hs') as Hv'. unfold visited in Hv'.
    split; [by apply fvisit_reads|].
    intros Hfl. apply fvisit_settled; [done|by left].
  - destruct (fvisit_grows env (walk (w_listing w)) (w, [])) as ((E & HE) & _).
    cbn zeta in HE. exists E. by rewrite HE, app_assoc.
Qed.

Lemma file_errors_are_contained_demo :
  let path := path_join base_dir (cps "raw.txt") in
  let msg := cps "[Errno 28] No space left on device" in
  Faulty.main disk_full demo_world = (Ret tt, faulty_after_main disk_full demo_world)
  ∧ error_line path msg ∈ w_stdout (faulty_after_main disk_full demo_world)
  ∧ (cps "raw.txt" ∉ faulty_files_updated_of disk_full demo_world)
  ∧ (raises path (w_files demo_world !! path) msg →
     w_files (faulty_after_main disk_full demo_world) !! path
     = w_files demo_world !! path)
  ∧ (∀ rel', rel' ∈ w_listing demo_world → eligible rel' = true →
             should_skip (path_join base_dir rel') = false →
             EvRead (path_join base_dir rel')
               ∈ w_trace (faulty_after_main disk_full demo_world)
             ∧ (flush_err disk_full (path_join base_dir rel') = None →
                w_files (faulty_after_main disk_full demo_world)
                  !! (path_join base_dir rel')
                = file_next (w_files demo_world !! (path_join base_dir rel'))))
  ∧ (∃ E, w_stdout (faulty_after_main disk_full demo_world)
          = w_stdout demo_world ++ E
            ++ report_lines (faulty_files_updated_of disk_full demo_world)).
Proof.
  apply (file_errors_are_contained disk_full demo_world (cps "raw.txt")
           (cps "[Errno 28] No space left on device")).
  - intros line. reflexivity.
  - apply list_elem_of_In. vm_compute. tauto.
  - vm_compute. reflexivity.
  - vm_compute. reflexivity.
  - right. exists (File (cps "ghl-agency-ai" ++ [255; 13; 10]) None None), 6%nat.
    split_and!; [vm_compute; reflexivity|reflexivity|reflexivity| |vm_compute; reflexivity].
    vm_compute. discriminate.
Defined.

(** C4: a file whose path contains one of the skip patterns is never
    opened and never modified by the run, whatever it contains: no
    event of the run concerns it and its entry in the file system is
    unchanged. *)
Theorem skipped_files_are_untouched (w : world) (path : str) :
  should_skip path = true →
  w_files (after_main w) !! path = w_files w !! path
  ∧ ∃ T, w_trace (after_main w) = w_trace w ++ T
         ∧ ∀ e, e ∈ T → event_path e ≠ path.
Proof.
  intros Hs.
  assert (¬ visited w path) as Hv by (intros [_ ?]; congruence).
  split; [by rewrite after_main_files, decide_False|].
  destruct (after_main_trace w) as (T & HT & Hpaths & _).
  exists T. split; [done|]. intros e He%Hpaths Heq. by rewrite Heq in He.
Qed.

Lemma skipped_files_are_untouched_demo :
  let path := path_join base_dir (cps "node_modules/x.js") in
  w_files (after_main demo_world) !! path = w_files demo_world !! path
  ∧ ∃ T, w_trace (after_main demo_world) = w_trace demo_world ++ T
         ∧ ∀ e, e ∈ T → event_path e ≠ path.
Proof.
  apply (skipped_files_are_untouched demo_world
           (path_join base_dir (cps "node_modules/x.js"))).
  vm_compute. reflexivity.
Defined.

(** C5: on a text without occurrence of "GHL Agency AI", of
    "ghl-agency-ai" and, in any casing, of "ghl.agency.ai" the
    transformation is the identity; a file whose decoded content is
    such a text is not opened for writing, keeps its bytes, and is not
    among the updated files. *)
Theorem clean_files_are_not_written (w : world) (path : str) (f : file) :
  w_files w !! path = Some f → clean (read_text (f_bytes f)) →
  transform (read_text (f_bytes f)) = read_text (f_bytes f)
  ∧ w_files (after_main w) !! path = Some f
  ∧ (∃ T, w_trace (after_main w) = w_trace w ++ T ∧ EvWrite path ∉ T)
  ∧ ∀ rel, path_join base_dir rel = path → rel ∉ files_updated_of w.
Proof.
  intros Hf Hclean%clean_fixed.
  destruct (unreadable_next (w_files w !! path)) as (Hnext & Hup & Hopens).
  { rewrite Hf. intros ? [= <-]. by right. }
  split_and!.
  - done.
  - rewrite after_main_files. case_decide; [by rewrite Hnext|done].
  - destruct (after_main_trace w) as (T & HT & _ & _ & Hw).
    exists T. split; [done|]. intros Hin%Hw. by apply (Hopens path).
  - intros rel <- [_ Hu]%files_updated_spec. congruence.
Qed.

Lemma clean_files_are_not_written_demo :
  let path := path_join base_dir (cps "src/app.ts") in
  let f := File (cps "export const plain = 1;") None None in
  transform (read_text (f_bytes f)) = read_text (f_bytes f)
  ∧ w_files (after_main demo_world) !! path = Some f
  ∧ (∃ T, w_trace (after_main demo_world) = w_trace demo_world ++ T
          ∧ EvWrite path ∉ T)
  ∧ ∀ rel, path_join base_dir rel = path → rel ∉ files_updated_of demo_world.
Proof.
  apply (clean_files_are_not_written demo_world
           (path_join base_dir (cps "src/app.ts"))
           (File (cps "export const plain = 1;") None None)).
  - vm_compute. reflexivity.
  - apply clean_contains. vm_compute. auto.
Defined.

(** C7: a file whose name ends with none of the fixed extensions is
    never opened and never modified by the run, whatever it contains. *)
Theorem other_extensions_are_untouched (w : world) (path : str) :
  (∀ ext, ext ∈ extensions → ends_with ext (path_name path) = false) →
  w_files (after_main w) !! path = w_files w !! path
  ∧ ∃ T, w_trace (after_main w) = w_trace w ++ T
         ∧ ∀ e, e ∈ T → event_path e ≠ path.
Proof.
  intros Hext.
  assert (¬ visited w path) as Hv.
  { intros (ext & Hin & He)%visited_extension. rewrite Hext in He; done. }
  split; [by rewrite after_main_files, decide_False|].
  destruct (after_main_trace w) as (T & HT & Hpaths & _).
  exists T. split; [done|]. intros e He%Hpaths Heq. by rewrite Heq in He.
Qed.

Lemma other_extensions_are_untouched_demo :
  let path := path_join base_dir (cps "logo.svg") in
  w_files (after_main demo_world) !! path = w_files demo_world !! path
  ∧ ∃ T, w_trace (after_main demo_world) = w_trace demo_world ++ T
         ∧ ∀ e, e ∈ T → event_path e ≠ path.
Proof.
  apply (other_extensions_are_untouched demo_world (path_join base_dir (cps "logo.svg"))).
  intros ext Hext%list_elem_of_In. vm_compute in Hext.
  repeat (destruct Hext as [<-|Hext]; [vm_compute; reflexivity|]). destruct Hext.
Defined.

Lemma ascii_variant_matches (p x : Z) : ascii_lower x = p → ci_literal p x = true.
Proof.
  unfold ascii_lower, ci_literal, iscased_ascii, sre_lower, ignorecase_fixes.
  intros <-. repeat case_match; cbn [existsb]; lia.
Qed.

(** C6: the three rules are applied in the fixed order brand name,
    slug, domain pattern, each on the output of the one before; every
    casing variant of "ghl.agency.ai" becomes exactly
    "bottleneckbots.com"; and the rules do not interfere: wherever a
    brand name, a slug or a casing variant of the domain stands in a
    text, it is replaced by its own replacement and the text before
    and after it is transformed as if it stood alone, so that a text
    holding both the slug and a cased domain resolves to
    "bottleneck-bots" and "bottleneckbots.com" in one pass. *)
Theorem rules_apply_in_order_without_interference :
  (∀ s, transform s =
        re_sub_ignorecase domain_re domain_new
          (str_replace slug_old slug_new (str_replace brand_old brand_new s)))
  ∧ (∀ v, map ascii_lower v = domain_old → casing_variant domain_old v)
  ∧ (∀ v, casing_variant domain_old v → transform v = domain_new)
  ∧ (∀ x y, transform (x ++ brand_old ++ y) = transform x ++ brand_new ++ transform y)
  ∧ (∀ x y, transform (x ++ slug_old ++ y) = transform x ++ slug_new ++ transform y)
  ∧ (∀ v x y, casing_variant domain_old v →
              transform (x ++ v ++ y) = transform x ++ domain_new ++ transform y)
  ∧ (∀ v a b c, casing_variant domain_old v →
                transform (a ++ slug_old ++ b ++ v ++ c)
                = transform a ++ slug_new ++ transform b ++ domain_new ++ transform c).
Proof.
  split_and!.
  - reflexivity.
  - intros v <-. unfold casing_variant. induction v as [|x v IH]; constructor; [|done].
    by apply ascii_variant_matches.
  - intros v Hv. pose proof (transform_domain_block v [] [] Hv) as H.
    rewrite app_nil_r in H. cbn [app] in H. rewrite H. by vm_compute.
  - apply transform_brand_block.
  - apply transform_slug_block.
  - apply transform_domain_block.
  - intros v a b c Hv. by rewrite transform_slug_block, transform_domain_block.
Qed.

Lemma rules_apply_in_order_without_interference_demo :
  transform (cps "see " ++ slug_old ++ cps " at " ++ cps "GHL.Agency.AI" ++ cps " now")
  = transform (cps "see ") ++ slug_new ++ transform (cps " at ")
      ++ domain_new ++ transform (cps " now").
Proof.
  apply rules_apply_in_order_without_interference.
  apply rules_apply_in_order_without_interference. vm_compute. reflexivity.
Defined.



(** C9: what the run does to a file is a function of its decoded
    text alone: two readable and writable files with the same decoded
    content, in the same tree or in two different ones and whatever
    their paths and the other files are, end with the same decoded
    content, the transformation of the original; one is reported as
    updated exactly if the other is, and then both hold the same
    bytes. *)
Theorem outcome_depends_on_content_only
    (w1 w2 : world) (rel1 rel2 : str) (f1 f2 : file) :
  rel1 ∈ w_listing w1 → eligible rel1 = true →
  should_skip (path_join base_dir rel1) = false →
  rel2 ∈ w_listing w2 → eligible rel2 = true →
  should_skip (path_join base_dir rel2) = false →
  w_files w1 !! (path_join base_dir rel1) = Some f1 →
  w_files w2 !! (path_join base_dir rel2) = Some f2 →
  f_read_err f1 = None → f_write_err f1 = None →
  f_read_err f2 = None → f_write_err f2 = None →
  read_text (f_bytes f1) = read_text (f_bytes f2) →
  (rel1 ∈ files_updated_of w1 ↔ rel2 ∈ files_updated_of w2)
  ∧ ∃ f1' f2',
      w_files (after_main w1) !! (path_join base_dir rel1) = Some f1'
      ∧ w_files (after_main w2) !! (path_join base_dir rel2) = Some f2'
      ∧ read_text (f_bytes f1') = transform (read_text (f_bytes f1))
      ∧ read_text (f_bytes f2') = transform (read_text (f_bytes f1))
      ∧ (rel1 ∈ files_updated_of w1 → f_bytes f1' = f_bytes f2').
Proof.
  intros Hin1 He1 Hs1 Hin2 He2 Hs2 Hf1 Hf2 Hr1 Hw1 Hr2 Hw2 Heq.
  pose proof (visited_intro w1 rel1 Hin1 He1 Hs1) as Hv1.
  pose proof (visited_intro w2 rel2 Hin2 He2 Hs2) as Hv2.
  assert (rel1 ∈ files_updated_of w1
          ↔ transform (read_text (f_bytes f1)) ≠ read_text (f_bytes f1)) as Hu1.
  { destruct (files_updated_spec w1) as [_ ->]. rewrite updated_iff, Hf1. split.
    - by intros [_ (f & [= <-] & _ & _ & ?)].
    - intros ?. split; [done|]. by exists f1. }
  assert (rel2 ∈ files_updated_of w2
          ↔ transform (read_text (f_bytes f1)) ≠ read_text (f_bytes f1)) as Hu2.
  { destruct (files_updated_spec w2) as [_ ->]. rewrite updated_iff, Hf2, Heq. split.
    - by intros [_ (f & [= <-] & _ & _ & ?)].
    - intros ?. split; [done|]. by exists f2. }
  split; [by rewrite Hu1, Hu2|].
  rewrite !after_main_files, !decide_True, Hf1, Hf2 by done.
  unfold file_next.
  destruct (verdict_ok f1 Hr1 Hw1) as [[Hfix1 ->]|(Hne1 & bs1 & Hbs1 & Hread1 & ->)];
    destruct (verdict_ok f2 Hr2 Hw2) as [[Hfix2 ->]|(Hne2 & bs2 & Hbs2 & Hread2 & ->)];
    rewrite <- ?Heq in *; try congruence.
  - exists f1, f2. split_and!; [done|done|done|by rewrite <- Heq|].
    intros ?%Hu1. done.
  - eexists _, _. split_and!; [done..|]. intros _. cbn. congruence.
Qed.

Lemma outcome_depends_on_content_only_demo :
  (cps "README.md" ∈ files_updated_of demo_world
   ↔ cps "copy.md" ∈ files_updated_of demo_world)
  ∧ ∃ f1' f2',
      w_files (after_main demo_world) !! (path_join base_dir (cps "README.md")) = Some f1'
      ∧ w_files (after_main demo_world) !! (path_join base_dir (cps "copy.md")) = Some f2'
      ∧ read_text (f_bytes f1')
        = transform (read_text (cps "# GHL Agency AI" ++ [13; 10] ++ cps "see GHL.AGENCY.AI"))
      ∧ read_text (f_bytes f2')
        = transform (read_text (cps "# GHL Agency AI" ++ [13; 10] ++ cps "see GHL.AGENCY.AI"))
      ∧ (cps "README.md" ∈ files_updated_of demo_world → f_bytes f1' = f_bytes f2').
Proof.
  apply (outcome_depends_on_content_only demo_world demo_world
           (cps "README.md") (cps "copy.md")
           (File (cps "# GHL Agency AI" ++ [13; 10] ++ cps "see GHL.AGENCY.AI") None None)
           (File (cps "# GHL Agency AI" ++ [10] ++ cps "see GHL.AGENCY.AI") None None)).
  - apply list_elem_of_In. vm_compute. tauto.
  - vm_compute. reflexivity.
  - vm_compute. reflexivity.
  - apply list_elem_of_In. vm_compute. tauto.
  - vm_compute. reflexivity.
  - vm_compute. reflexivity.
  - vm_compute. reflexivity.
  - vm_compute. reflexivity.
  - reflexivity.
  - reflexivity.
  - reflexivity.
  - reflexivity.
  - vm_compute. reflexivity.
Defined.

(** C10, as stated, fails: for a file that holds a target and bytes
    that are not UTF-8, the bytes written need not be the encoding of
    the transformed bytes-ignored decoding, because reading also
    translates line endings.  The file [raw.txt] of the demo tree
    holds the slug, the byte 255 and a CR LF; the run rewrites it
    without the bad byte and with a bare LF, while the encoding of the
    transformed bytes-ignored decoding ends in CR LF. *)
Lemma rewritten_bytes_lose_carriage_returns :
  ¬ (∀ (w : world) (rel : str) (f : file),
       rel ∈ w_listing w → eligible rel = true →
       should_skip (path_join base_dir rel) = false →
       w_files w !! (path_join base_dir rel) = Some f →
       f_read_err f = None → f_write_err f = None →
       occurs slug_old (read_text (f_bytes f)) →
       ¬ well_formed_utf8 (f_bytes f) →
       ∃ f', w_files (after_main w) !! (path_join base_dir rel) = Some f'
             ∧ utf8_encode (transform (utf8_decode_ignore (f_bytes f)))
               = Some (f_bytes f')).
Proof.
  intros H.
  destruct (H demo_world (cps "raw.txt")
              (File (cps "ghl-agency-ai" ++ [255; 13; 10]) None None))
    as (f' & Hf' & Hbytes).
  - apply list_elem_of_In. vm_compute. tauto.
  - by vm_compute.
  - by vm_compute.
  - by vm_compute.
  - done.
  - done.
  - exists [], [10]. by vm_compute.
  - by vm_compute.
  - vm_compute in Hf'. injection Hf' as <-. vm_compute in Hbytes. discriminate.
Qed.

(** C10 (amended): a file that is rewritten is left with exactly the
    UTF-8 encoding of the transformed text that reading returned, that
    is, of its decoding with undecodable bytes left out and the line
    endings CR LF and CR translated to LF; undecodable bytes are
    thereby dropped from the file.  For a file without CR byte this is
    the encoding of the transformed bytes-ignored decoding itself. *)
Theorem rewritten_bytes_encode_transformed_text (w : world) (rel : str) (f : file) :
  rel ∈ w_listing w → eligible rel = true →
  should_skip (path_join base_dir rel) = false →
  w_files w !! (path_join base_dir rel) = Some f →
  f_read_err f = None → f_write_err f = None →
  transform (read_text (f_bytes f)) ≠ read_text (f_bytes f) →
  ∃ bs, w_files (after_main w) !! (path_join base_dir rel) = Some (File bs None None)
        ∧ utf8_encode
            (transform (translate_newlines (utf8_decode_ignore (f_bytes f))))
          = Some bs
        ∧ (13 ∉ f_bytes f →
           utf8_encode (transform (utf8_decode_ignore (f_bytes f))) = Some bs).
Proof.
  intros Hin He Hs Hf Hr Hw Hne.
  rewrite after_main_files, decide_True, Hf by by apply visited_intro.
  unfold file_next.
  destruct (verdict_ok f Hr Hw) as [[? _]|(_ & bs & Hbs & _ & ->)]; [done|].
  exists bs. split_and!; [done..|]. intros Hcr. rewrite <- Hbs. unfold read_text.
  by rewrite (translate_newlines_id (utf8_decode_ignore (f_bytes f)))
    by by apply utf8_decode_no_cr.
Qed.

Lemma rewritten_bytes_encode_transformed_text_demo :
  ∃ bs, w_files (after_main demo_world) !! (path_join base_dir (cps "raw.txt"))
        = Some (File bs None None)
        ∧ utf8_encode
            (transform (translate_newlines
                          (utf8_decode_ignore (cps "ghl-agency-ai" ++ [255; 13; 10]))))
          = Some bs
        ∧ (13 ∉ cps "ghl-agency-ai" ++ [255; 13; 10] →
           utf8_encode (transform (utf8_decode_ignore (cps "ghl-agency-ai" ++ [255; 13; 10])))
           = Some bs).
Proof.
  apply (rewritten_bytes_encode_transformed_text demo_world (cps "raw.txt")
           (File (cps "ghl-agency-ai" ++ [255; 13; 10]) None None)).
  - apply list_elem_of_In. vm_compute. tauto.
  - vm_compute. reflexivity.
  - vm_compute. reflexivity.
  - vm_compute. reflexivity.
  - reflexivity.
  - reflexivity.
  - vm_compute. discriminate.
Defined.
End Claims.

(** * Further properties of the script *)

Section SkipPatterns.
Lemma contains_embedded (q : pattern) (pre s post : str) :
  contains q s = true → contains q (pre ++ s ++ post) = true.
Proof.
  intros (l1 & l2 & -> & Hm)%contains_true. apply contains_true.
  exists (pre ++ l1), (l2 ++ post). split; [by rewrite <- !app_assoc|].
  by apply pmatch_app.
Qed.

Lemma contains_split (q : pattern) (x y : str) (h : Z) :
  q ≠ [] → Forall (λ f, f h = false) q →
  contains q (x ++ h :: y) = contains q x || contains q y.
Proof.
  intros Hq Hh. induction x as [|c x IH].
  - pose proof (pmatch_stop q [] y h Hh) as E. cbn [app] in E.
    cbn [app contains]. rewrite E. by destruct q.
  - cbn [app contains]. rewrite IH, orb_assoc. f_equal.
    change (c :: x ++ h :: y) with ((c :: x) ++ h :: y).
    by rewrite pmatch_stop.
Qed.

Lemma should_skip_true (path : str) :
  should_skip path = true ↔ ∃ pattern, pattern ∈ skip_patterns ∧ occurs pattern path.
Proof.
  unfold should_skip. rewrite existsb_exists. split.
  - intros (pat & Hin & H). exists pat. split; [by apply list_elem_of_In|].
    by apply str_in_occurs.
  - intros (pat & Hin & H). exists pat. split; [by apply list_elem_of_In|].
    by apply str_in_occurs.
Qed.

(** X1: a path is skipped exactly if one of the skip patterns occurs
    in it as a substring, wherever it stands: a path that is skipped
    stays skipped when text is put before or after it, so every path
    below a skipped directory is skipped, and so is a file whose name
    merely contains a pattern. *)
Theorem skip_is_substring_containment (path pre post : str) :
  (should_skip path = true ↔
   ∃ pattern l1 l2, pattern ∈ skip_patterns ∧ path = l1 ++ pattern ++ l2)
  ∧ (should_skip path = true → should_skip (pre ++ path ++ post) = true).
Proof.
  split.
  - rewrite should_skip_true. unfold occurs. split.
    + intros (pat & Hin & l1 & l2 & ->). by exists pat, l1, l2.
    + intros (pat & l1 & l2 & Hin & ->). exists pat. split; [done|]. by exists l1, l2.
  - rewrite !should_skip_true. intros (pat & Hin & l1 & l2 & ->).
    exists pat. split; [done|]. exists (pre ++ l1), (l2 ++ post).
    by rewrite <- !app_assoc.
Qed.

Lemma skip_is_substring_containment_demo :
  should_skip (cps "/srv/" ++ cps "node_modules" ++ cps "/pkg/readme.md") = true.
Proof.
  apply (skip_is_substring_containment (cps "node_modules") (cps "/srv/")
           (cps "/pkg/readme.md")).
  vm_compute. reflexivity.
Defined.

Lemma str_in_join (pat rel : str) :
  pat ≠ [] → forallb (λ c, negb (c =? 47)) pat = true →
  str_in pat base_dir = false →
  str_in pat (path_join base_dir rel) = str_in pat rel.
Proof.
  intros Hne Hslash Hbase. unfold str_in, path_join in *. cbn [app].
  rewrite contains_split, Hbase; [done|by destruct pat|].
  unfold lit. apply Forall_forall. intros f (c & <- & Hc)%list_elem_of_In%in_map_iff.
  rewrite forallb_forall in Hslash. apply Hslash in Hc. lia.
Qed.

(** X2: no skip pattern occurs in the base directory or contains a
    path separator, so whether a file below the base directory is
    skipped depends on its relative path alone. *)
Theorem skip_depends_on_relative_path (rel : str) :
  should_skip (path_join base_dir rel) = should_skip rel.
Proof.
  unfold should_skip, skip_patterns. cbn [existsb].
  rewrite !str_in_join by (by vm_compute). done.
Qed.
End SkipPatterns.

Section Visits.
Lemma ends_with_suffix (e s : str) : ends_with e s = true ↔ e `suffix_of` s.
Proof.
  unfold ends_with. rewrite str_eqb_true. split.
  - intros H. exists (take (length s - length e) s).
    rewrite <- (take_drop (length s - length e) s) at 1. by rewrite H.
  - intros [k ->]. rewrite length_app, Nat.add_sub. by rewrite drop_app_length.
Qed.

Lemma extension_suffix (e1 e2 : str) :
  e1 ∈ extensions → e2 ∈ extensions → e1 `suffix_of` e2 → e1 = e2.
Proof.
  intros H1 H2 Hs%ends_with_suffix.
  assert (forallb (λ a, forallb (λ b, implb (ends_with a b) (str_eqb a b)) extensions)
            extensions = true) as Hall by (by vm_compute).
  rewrite forallb_forall in Hall. apply list_elem_of_In, Hall in H1.
  rewrite forallb_forall in H1. apply list_elem_of_In, H1 in H2.
  rewrite Hs in H2. by apply str_eqb_true.
Qed.

Lemma extension_unique (name e1 e2 : str) :
  e1 ∈ extensions → e2 ∈ extensions →
  ends_with e1 name = true → ends_with e2 name = true → e1 = e2.
Proof.
  intros Ha Hb Hsa%ends_with_suffix Hsb%ends_with_suffix.
  destruct (suffix_weak_total e1 e2 name Hsa Hsb) as [H|H].
  - by apply extension_suffix.
  - symmetry. by apply extension_suffix.
Qed.


(** X3: no file name ends with two different extensions of the list:
    a file selected by the pattern of one extension is selected by no
    other, so the extension loop never selects the same file twice. *)
Theorem extensions_do_not_overlap (name e1 e2 : str) :
  e1 ∈ extensions → e2 ∈ extensions → e1 ≠ e2 →
  ends_with e1 (path_name name) = true → ends_with e2 (path_name name) = false.
Proof.
  intros H1 H2 Hne He1. destruct (ends_with e2 (path_name name)) eqn:He2; [|done].
  destruct Hne. by apply (extension_unique (path_name name)).
Qed.

Lemma extensions_do_not_overlap_demo :
  ends_with (cps ".js") (path_name (cps "cfg/package.json")) = false.
Proof.
  apply (extensions_do_not_overlap (cps "cfg/package.json") (cps ".json") (cps ".js")).
  - apply list_elem_of_In. vm_compute. tauto.
  - apply list_elem_of_In. vm_compute. tauto.
  - vm_compute. discriminate.
  - vm_compute. reflexivity.
Defined.





End Visits.

Section Targets2.
Lemma has_target_contains (s : str) :
  has_target s ↔
  contains brand_pat s = true ∨ contains slug_pat s = true
  ∨ contains domain_pat s = true.
Proof.
  unfold has_target, brand_pat, slug_pat.
  rewrite <- !str_in_occurs, <- contains_occurs_ci, <- domain_pat_eq. done.
Qed.

Lemma has_target_changes (s : str) : has_target s ↔ transform s ≠ s.
Proof.
  rewrite has_target_contains. split.
  - intros H Heq.
    pose proof (transform_no_brand s) as H1. pose proof (transform_no_slug s) as H2.
    pose proof (transform_no_domain s) as H3. rewrite Heq in H1, H2, H3.
    destruct H as [H|[H|H]]; congruence.
  - intros Hne.
    destruct (contains brand_pat s) eqn:H1; [by left|].
    destruct (contains slug_pat s) eqn:H2; [by right; left|].
    destruct (contains domain_pat s) eqn:H3; [by right; right|].
    destruct Hne. by apply transform_fixed.
Qed.

(** X5: a file that the run visits and can read and write is reported
    as updated exactly if its content holds one of the three targets. *)
Theorem updated_iff_target (w : world) (rel : str) (f : file) :
  rel ∈ w_listing w → eligible rel = true →
  should_skip (path_join base_dir rel) = false →
  w_files w !! (path_join base_dir rel) = Some f →
  f_read_err f = None → f_write_err f = None →
  rel ∈ files_updated_of w ↔ has_target (read_text (f_bytes f)).
Proof.
  intros Hin He Hs Hf Hr Hw.
  destruct (files_updated_spec w) as [_ ->].
  rewrite updated_iff, has_target_changes, Hf. split.
  - by intros [_ (f' & [= <-] & _ & _ & ?)].
  - intros Hne. split; [by apply visited_intro|]. by exists f.
Qed.

Lemma updated_iff_target_demo :
  cps "copy.md" ∈ files_updated_of demo_world
  ↔ has_target (read_text (cps "# GHL Agency AI" ++ [10] ++ cps "see GHL.AGENCY.AI")).
Proof.
  apply (updated_iff_target demo_world (cps "copy.md")
           (File (cps "# GHL Agency AI" ++ [10] ++ cps "see GHL.AGENCY.AI") None None)).
  - apply list_elem_of_In. vm_compute. tauto.
  - vm_compute. reflexivity.
  - vm_compute. reflexivity.
  - vm_compute. reflexivity.
  - reflexivity.
  - reflexivity.
Defined.
End Targets2.

Section Commutation.
Variables (p1 p2 : pattern) (r1 r2 : str).
Hypothesis p1_nonempty : p1 ≠ [].
Hypothesis p2_nonempty : p2 ≠ [].
Hypothesis inert_21 : inert p2 r1.
Hypothesis inert_12 : inert p1 r2.
Hypothesis inner_21 : ∀ u, pmatch p1 u = true → length u = length p1 → no_inner p2 u.
Hypothesis inner_12 : ∀ u, pmatch p2 u = true → length u = length p2 → no_inner p1 u.

Lemma inert_no_inner (q : pattern) (r : str) : inert q r → no_inner q r.
Proof.
  intros (f & q' & h & r' & -> & _ & Hf & _) k z Hk.
  destruct (drop k r) as [|c l] eqn:Hd.
  { apply (f_equal length) in Hd. rewrite length_drop in Hd. simpl in Hd. lia. }
  assert (c ∈ r) as Hc.
  { apply (list_elem_of_lookup_2 _ k). rewrite <- (Nat.add_0_r k), <- lookup_drop, Hd. done. }
  rewrite Forall_forall in Hf. cbn. by rewrite (Hf c Hc).
Qed.

Lemma pmatch_take (q : pattern) (s : str) :
  pmatch q s = true →
  pmatch q (take (length q) s) = true ∧ length (take (length q) s) = length q.
Proof.
  intros Hm. pose proof (pmatch_length _ _ Hm). split.
  - rewrite <- (take_drop (length q) s) in Hm. rewrite pmatch_long in Hm; [done|].
    rewrite length_take. lia.
  - rewrite length_take. lia.
Qed.

Lemma sub_all_step_hit (s : str) :
  pmatch p1 s = true →
  sub_all p2 r2 (sub_all p1 r1 s)
  = r1 ++ sub_all p2 r2 (sub_all p1 r1 (drop (length p1) s))
  ∧ sub_all p1 r1 (sub_all p2 r2 s)
    = r1 ++ sub_all p1 r1 (sub_all p2 r2 (drop (length p1) s)).
Proof.
  intros Hm. destruct (pmatch_take _ _ Hm) as [Hu Hl].
  rewrite <- (take_drop (length p1) s) at 1 3.
  split.
  - rewrite (sub_all_hit p1 r1 p1_nonempty) by done.
    apply (sub_all_miss p2 r2 p2_nonempty). by apply inert_no_inner.
  - rewrite (sub_all_miss p2 r2 p2_nonempty) by by apply inner_21.
    by apply (sub_all_hit p1 r1 p1_nonempty).
Qed.
End Commutation.

Section Commutation2.
Variables (p1 p2 : pattern) (r1 r2 : str).
Hypothesis p1_nonempty : p1 ≠ [].
Hypothesis p2_nonempty : p2 ≠ [].
Hypothesis inert_21 : inert p2 r1.
Hypothesis inert_12 : inert p1 r2.
Hypothesis inner_21 : ∀ u, pmatch p1 u = true → length u = length p1 → no_inner p2 u.
Hypothesis inner_12 : ∀ u, pmatch p2 u = true → length u = length p2 → no_inner p1 u.

(** Two replacements commute when neither pattern can match inside or
    across a match or a replacement text of the other. *)
Lemma sub_all_comm (s : str) :
  sub_all p2 r2 (sub_all p1 r1 s) = sub_all p1 r1 (sub_all p2 r2 s).
Proof.
  remember (length s) as n eqn:Hn. revert s Hn.
  induction n as [n IH] using lt_wf_ind. intros [|c t] Hn; [done|].
  destruct (pmatch p1 (c :: t)) eqn:H1.
  { destruct (sub_all_step_hit p1 p2 r1 r2 p1_nonempty p2_nonempty inert_21 inner_21
                (c :: t) H1) as [-> ->].
    f_equal. eapply IH; [|done]. rewrite length_drop, Hn.
    destruct p1; [done|]. simpl. lia. }
  destruct (pmatch p2 (c :: t)) eqn:H2.
  { destruct (sub_all_step_hit p2 p1 r2 r1 p2_nonempty p1_nonempty inert_12 inner_12
                (c :: t) H2) as [-> ->].
    f_equal. eapply IH; [|done]. rewrite length_drop, Hn.
    destruct p2; [done|]. simpl. lia. }
  rewrite (sub_all_cons p1 r1 p1_nonempty), (sub_all_cons p2 r2 p2_nonempty), H1, H2.
  rewrite (sub_all_cons p2 r2 p2_nonempty), (sub_all_cons p1 r1 p1_nonempty).
  assert (pmatch p2 (c :: sub_all p1 r1 t) = false) as ->.
  { destruct (pmatch p2 (c :: sub_all p1 r1 t)) eqn:E; [|done].
    apply (pmatch_sub_all p1 r1 p1_nonempty p2 t [c] inert_21) in E. cbn [app] in E. congruence. }
  assert (pmatch p1 (c :: sub_all p2 r2 t) = false) as ->.
  { destruct (pmatch p1 (c :: sub_all p2 r2 t)) eqn:E; [|done].
    apply (pmatch_sub_all p2 r2 p2_nonempty p1 t [c] inert_12) in E. cbn [app] in E. congruence. }
  f_equal. eapply IH; [|done]. rewrite Hn. simpl. lia.
Qed.
End Commutation2.

Section RuleOrder.
Lemma inert_slug_brand : inert slug_pat brand_new.
Proof. apply (inert_by_check _ _ _ covers_slug). by vm_compute. Qed.
Lemma inert_domain_brand : inert domain_pat brand_new.
Proof. apply (inert_by_check _ _ _ covers_domain). by vm_compute. Qed.
Lemma inert_domain_slug : inert domain_pat slug_new.
Proof. apply (inert_by_check _ _ _ covers_domain). by vm_compute. Qed.

Lemma brand_slug_comm (s : str) :
  sub_all slug_pat slug_new (sub_all brand_pat brand_new s)
  = sub_all brand_pat brand_new (sub_all slug_pat slug_new s).
Proof.
  apply sub_all_comm.
  - apply brand_pat_nonempty.
  - apply slug_pat_nonempty.
  - apply inert_slug_brand.
  - apply inert_brand_slug.
  - intros u Hu Hl.
    apply (no_inner_by_check _ _ _ _ _ covers_slug covers_brand Hu Hl). by vm_compute.
  - intros u Hu Hl.
    apply (no_inner_by_check _ _ _ _ _ covers_brand covers_slug Hu Hl). by vm_compute.
Qed.

Lemma brand_domain_comm (s : str) :
  sub_all domain_pat domain_new (sub_all brand_pat brand_new s)
  = sub_all brand_pat brand_new (sub_all domain_pat domain_new s).
Proof.
  apply sub_all_comm.
  - apply brand_pat_nonempty.
  - apply domain_pat_nonempty.
  - apply inert_domain_brand.
  - apply inert_brand_domain.
  - intros u Hu Hl.
    apply (no_inner_by_check _ _ _ _ _ covers_domain covers_brand Hu Hl). by vm_compute.
  - intros u Hu Hl.
    apply (no_inner_by_check _ _ _ _ _ covers_brand covers_domain Hu Hl). by vm_compute.
Qed.

Lemma slug_domain_comm (s : str) :
  sub_all domain_pat domain_new (sub_all slug_pat slug_new s)
  = sub_all slug_pat slug_new (sub_all domain_pat domain_new s).
Proof.
  apply sub_all_comm.
  - apply slug_pat_nonempty.
  - apply domain_pat_nonempty.
  - apply inert_domain_slug.
  - apply inert_slug_domain.
  - intros u Hu Hl.
    apply (no_inner_by_check _ _ _ _ _ covers_domain covers_slug Hu Hl). by vm_compute.
  - intros u Hu Hl.
    apply (no_inner_by_check _ _ _ _ _ covers_slug covers_domain Hu Hl). by vm_compute.
Qed.
End RuleOrder.

Section RuleOrder2.
(** X6: the order in which the three replacement rules of
    [rebrand_file] are applied does not matter: any two of them
    commute on every text, so applying them in the reverse order gives
    the same result as the order of the script. *)
Theorem rules_commute (content : str) :
  str_replace slug_old slug_new (str_replace brand_old brand_new content)
  = str_replace brand_old brand_new (str_replace slug_old slug_new content)
  ∧ re_sub_ignorecase domain_re domain_new (str_replace brand_old brand_new content)
    = str_replace brand_old brand_new (re_sub_ignorecase domain_re domain_new content)
  ∧ re_sub_ignorecase domain_re domain_new (str_replace slug_old slug_new content)
    = str_replace slug_old slug_new (re_sub_ignorecase domain_re domain_new content)
  ∧ str_replace brand_old brand_new
      (str_replace slug_old slug_new
         (re_sub_ignorecase domain_re domain_new content))
    = transform content.
Proof.
  split_and!.
  - apply brand_slug_comm.
  - apply brand_domain_comm.
  - apply slug_domain_comm.
  - rewrite transform_unfold.
    rewrite (slug_domain_comm (sub_all brand_pat brand_new content)).
    rewrite (brand_domain_comm content).
    rewrite (brand_slug_comm (sub_all domain_pat domain_new content)).
    reflexivity.
Qed.
End RuleOrder2.

Section Contract.
Local Opaque cps read_text utf8_encode str_replace re_sub_ignorecase base_dir.

Lemma rewritten_differs (f : file) (bs : list Z) :
  verdict_of (Some f) = Rewritten bs →
  bs ≠ f_bytes f ∧ read_text bs = transform (read_text (f_bytes f)).
Proof.
  intros (f' & [= <-] & _ & _ & Hne & Henc)%verdict_rewritten.
  destruct (write_read_text (f_bytes f)) as (out & Hout & Hread).
  assert (out = bs) as -> by congruence.
  split; [|done]. intros ->. by symmetry in Hread.
Qed.

(** X7: [rebrand_file] raises only when printing its error line
    raises, and then with the exception of [print].  In every case it
    leaves the listing and every other file alone.  When it returns
    [True] nothing was printed and the file holds the encoding of the
    transformed text, which differs from the old bytes and reads back
    as that text.  When it returns [False] either nothing was printed
    and no file has changed, or one error line for this path was
    printed; after an error the file is as it was, unless writing
    failed once the file was open, which leaves the first bytes of the
    new content. *)
Theorem rebrand_file_contract (env : faults) (path : str) (w : world) :
  ∃ (r : outcome bool) (w' : world),
    Faulty.rebrand_file env path w = (r, w')
    ∧ w_listing w' = w_listing w
    ∧ (∀ q, q ≠ path → w_files w' !! q = w_files w !! q)
    ∧ match r with
      | Ret true =>
          w_stdout w' = w_stdout w
          ∧ ∃ f bs, w_files w !! path = Some f
                    ∧ utf8_encode (transform (read_text (f_bytes f))) = Some bs
                    ∧ w_files w' = <[path := File bs None None]> (w_files w)
                    ∧ bs ≠ f_bytes f
                    ∧ read_text bs = transform (read_text (f_bytes f))
      | Ret false =>
          (w_stdout w' = w_stdout w ∧ w_files w' = w_files w)
          ∨ ∃ msg, w_stdout w' = w_stdout w ++ [error_line path msg]
                   ∧ left_by_error env path msg (w_files w) (w_files w')
      | Raise e =>
          ∃ msg, print_err env (error_line path msg) = Some e
                 ∧ w_stdout w' = w_stdout w
                 ∧ left_by_error env path msg (w_files w) (w_files w')
      end.
Proof.
  exists (Faulty.rebrand_file env path w).1, (Faulty.rebrand_file env path w).2.
  split; [by destruct (Faulty.rebrand_file env path w)|].
  rewrite faulty_rebrand_file_spec. cbn zeta.
  pose proof (verdict_encodable (w_files w !! path)) as Henc.
  unfold fverdict_of.
  destruct (verdict_of (w_files w !! path)) as [|msg| |msg| |bs] eqn:Hv; try done.
  - cbn [ferrors_of errors_of]. destruct (print_err env _) eqn:Hp; cbn.
    + split_and!; try done. eexists. split_and!; [done..|by left].
    + split_and!; try done. right. eexists. split; [done|by left].
  - cbn [ferrors_of errors_of]. destruct (print_err env _) eqn:Hp; cbn.
    + split_and!; try done. eexists. split_and!; [done..|by left].
    + split_and!; try done. right. eexists. split; [done|by left].
  - cbn. split_and!; try done. by left.
  - cbn [ferrors_of errors_of]. destruct (print_err env _) eqn:Hp; cbn.
    + split_and!; try done. eexists. split_and!; [done..|by left].
    + split_and!; try done. right. eexists. split; [done|by left].
  - destruct (w_files w !! path) as [f|] eqn:Hf; [|done].
    destruct (rewritten_differs f bs Hv) as [Hne Hread].
    apply verdict_rewritten in Hv as (f' & [= <-] & _ & _ & _ & Hbs).
    destruct (flush_err env path) as [[msg n]|] eqn:Hfl.
    + cbn [ferrors_of]. destruct (print_err env _) eqn:Hp; cbn.
      * split_and!; try done; [intros q Hq; by rewrite lookup_insert_ne|].
        eexists. split_and!; [done..|]. right. by exists f, bs, n.
      * split_and!; try done; [intros q Hq; by rewrite lookup_insert_ne|].
        right. eexists. split; [done|]. right. by exists f, bs, n.
    + cbn. split_and!; try done; [intros q Hq; by rewrite lookup_insert_ne|].
      by exists f, bs.
Qed.
End Contract.

Section Reported.
Local Opaque cps read_text utf8_encode str_replace re_sub_ignorecase base_dir.

Lemma utf8_encode_char_no_cr (c : Z) (cb : list Z) :
  utf8_encode_char c = Some cb → c ≠ 13 → 13 ∉ cb.
Proof.
  unfold utf8_encode_char. intros H Hc.
  destruct (negb (is_scalar c)); [done|].
  repeat case_match; simplify_eq; rewrite ?not_elem_of_cons; split_and!;
    try apply not_elem_of_nil; try lia;
    (Z.to_euclidean_division_equations; lia).
Qed.

Lemma utf8_encode_no_cr (s : str) (bs : list Z) :
  Forall not_cr s → utf8_encode s = Some bs → 13 ∉ bs.
Proof.
  Local Transparent utf8_encode.
  intros H. revert bs. induction H as [|c s Hc _ IH]; intros bs; cbn [utf8_encode].
  - intros [= <-]. apply not_elem_of_nil.
  - destruct (utf8_encode_char c) as [cb|] eqn:Hcb; [|done].
    destruct (utf8_encode s) as [r|]; [|done]. intros [= <-].
    rewrite not_elem_of_app. split; [by apply (utf8_encode_char_no_cr c)|by apply IH].
Qed.

(** X8: the report lists no file that the run has not changed.  Every
    path in [files_updated] is an entry of the listing whose file
    existed before the run and afterwards holds different bytes; these
    are well-formed UTF-8 and contain no carriage return. *)
Theorem reported_files_were_rewritten (w : world) (rel : str) :
  rel ∈ files_updated_of w →
  rel ∈ w_listing w
  ∧ ∃ f f', w_files w !! (path_join base_dir rel) = Some f
            ∧ w_files (after_main w) !! (path_join base_dir rel) = Some f'
            ∧ f_bytes f' ≠ f_bytes f
            ∧ well_formed_utf8 (f_bytes f')
            ∧ 13 ∉ f_bytes f'.
Proof.
  intros Hin. destruct (files_updated_spec w) as [_ Hspec].
  apply Hspec in Hin as [Hv Hu].
  pose proof Hv as (rel' & Hrel & _ & Heq & _)%visited_iff.
  unfold path_join in Heq. apply app_inv_head, app_inv_head in Heq as <-.
  split; [done|].
  rewrite after_main_files, decide_True by done. unfold file_next.
  destruct (verdict_of (w_files w !! path_join base_dir rel)) as [| | | | |bs] eqn:Hvd;
    try done.
  pose proof Hvd as (f & Hf & _ & _ & _ & Henc)%verdict_rewritten.
  rewrite Hf in Hvd |- *. destruct (rewritten_differs f bs Hvd) as [Hne _].
  exists f, (File bs None None). cbn [f_bytes]. split_and!; try done.
  - unfold well_formed_utf8. by rewrite (utf8_decode_encode _ _ Henc).
  - apply (utf8_encode_no_cr _ _ (transform_no_cr _ (read_text_no_cr _)) Henc).
Qed.

Lemma reported_files_were_rewritten_demo :
  cps "README.md" ∈ w_listing demo_world
  ∧ ∃ f f', w_files demo_world !! (path_join base_dir (cps "README.md")) = Some f
            ∧ w_files (after_main demo_world) !! (path_join base_dir (cps "README.md"))
              = Some f'
            ∧ f_bytes f' ≠ f_bytes f
            ∧ well_formed_utf8 (f_bytes f')
            ∧ 13 ∉ f_bytes f'.
Proof.
  apply (reported_files_were_rewritten demo_world (cps "README.md")).
  apply (bool_decide_unpack _). vm_compute. exact I.
Defined.
End Reported.

Section IdleRun.
Local Opaque cps read_text utf8_encode str_replace re_sub_ignorecase base_dir.



End IdleRun.

Section Enumeration.
Local Opaque cps read_text utf8_encode str_replace re_sub_ignorecase base_dir.


End Enumeration.

Section Existence.
Local Opaque cps read_text utf8_encode str_replace re_sub_ignorecase base_dir.

(** X11: the run creates no file and deletes none: a path names a file
    after the run exactly if it did before, also when the listing
    names a file that does not exist. *)
Theorem run_creates_and_deletes_nothing (w : world) (path : str) :
  is_Some (w_files (after_main w) !! path) ↔ is_Some (w_files w !! path).
Proof.
  rewrite after_main_files. case_decide; [|done]. unfold file_next.
  pose proof (verdict_encodable (w_files w !! path)) as Henc.
  destruct (verdict_of (w_files w !! path)) as [| | | | |bs] eqn:Hv; try done.
  apply verdict_rewritten in Hv as (f & -> & _). split; intros _; by eexists.
Qed.
End Existence.
